(** * YPChess: the search engine of [engine.py], embedded and verified

    The development follows the one source file, [engine.py]:

    - the Rules Engine (python-chess) is an external collaborator and enters
      as an interface, [RulesEngine];
    - the evaluator ([evalFunct] and its four terms) is a pure function of the
      board;
    - the move orderer ([orderMoves]), the search core ([engine]) and the root
      dispatcher ([getBestMove]) mutate the board object and the
      transposition table, and are written in a small state and error monad.

    Python floats are modelled by [Score]: exact rationals plus the two
    infinities (no NaN arises in the program).  Rounding of binary64
    arithmetic is not modelled; equality of scores is numeric equality
    (Python's [==]), written [score_eq]. *)

From Stdlib Require Import QArith Lqa ZArith List Permutation Sorted Lia.
From stdpp Require Import base option list gmap.

(** ** Scores *)

Inductive Score : Type :=
  | NegInf
  | Fin (q : Q)
  | PosInf.

(** [a <= b] on floats. *)
Definition sleb (a b : Score) : bool :=
  match a, b with
  | NegInf, _ => true
  | _, PosInf => true
  | Fin p, Fin q => Qle_bool p q
  | _, _ => false
  end.

(** [a < b] on floats. *)
Definition sltb (a b : Score) : bool := negb (sleb b a).

Definition sle (a b : Score) : Prop := sleb a b = true.
Definition slt (a b : Score) : Prop := sltb a b = true.
(** Numeric equality, Python's [==]. *)
Definition seqb (a b : Score) : bool := sleb a b && sleb b a.
Definition score_eq (a b : Score) : Prop := seqb a b = true.

Declare Scope score_scope.
Delimit Scope score_scope with S.
Infix "<=" := sle : score_scope.
Infix "<" := slt : score_scope.
Infix "==" := score_eq : score_scope.

(** The order in the form the [order] tactic of the Standard Library takes. *)
Module ScoreOrder.
Definition t : Type := Score.
Definition eq : t -> t -> Prop := score_eq.
Definition lt : t -> t -> Prop := slt.
Definition le : t -> t -> Prop := sle.
End ScoreOrder.

(** Python's [max(a, b)]: the first argument is kept unless the second is
    strictly greater. *)
Definition pymax (a b : Score) : Score := if sltb a b then b else a.

(** Python's [min(a, b)]: the first argument is kept unless the second is
    strictly smaller. *)
Definition pymin (a b : Score) : Score := if sltb b a then b else a.

(** A float other than the two infinities. *)
Definition finite_score (a : Score) : Prop := slt NegInf a /\ slt a PosInf.

(** ** The Rules Engine interface (python-chess) *)

Inductive PieceType : Type := PAWN | KNIGHT | BISHOP | ROOK | QUEEN | KING.

(** [chess.PIECE_TYPES], in the library's order. *)
Definition PIECE_TYPES : list PieceType := [PAWN; KNIGHT; BISHOP; ROOK; QUEEN; KING].

(** [chess.WHITE] is [True], [chess.BLACK] is [False]. *)
Definition Color : Type := bool.

Definition Square : Type := Z.
Definition D4 : Square := 27%Z.
Definition E4 : Square := 28%Z.
Definition D5 : Square := 35%Z.
Definition E5 : Square := 36%Z.

Record Piece : Type := mkPiece { piece_type : PieceType; piece_color : Color }.

(** Modelled from the spec: the board object of the Rules Engine, which is not
    part of the repository.  Section 6 of the specification asks that
    apply and undo be paired and restore the state exactly; the board is
    therefore the current position together with the stack of the moves made
    and the positions they were made from, as python-chess keeps them. *)
Record Board (P M : Type) : Type := mkBoard {
  position : P;
  move_stack : list (M * P)
}.
Arguments mkBoard {P M} _ _.
Arguments position {P M} _.
Arguments move_stack {P M} _.

Class RulesEngine : Type := {
  Position : Type;
  Move : Type;
  Move_eq_dec :: EqDecision Move;
  Move_countable :: Countable Move;
  (** the position after a move *)
  apply_move : Position -> Move -> Position;
  legal_moves : Board Position Move -> list Move;
  is_capture : Board Position Move -> Move -> bool;
  is_check : Board Position Move -> bool;
  is_game_over : Board Position Move -> bool;
  turn : Board Position Move -> Color;
  fullmove_number : Board Position Move -> Z;
  zobrist_hash : Board Position Move -> Z;
  pieces : Board Position Move -> PieceType -> Color -> list Square;
  piece_at : Board Position Move -> Square -> option Piece
}.

(** ** Exceptions and outcomes *)

Inductive exn : Type := IndexError.

(** What a call does: it returns, raises, or is cut short by the bound put
    on the recursion depth of the model. *)
Inductive outcome (A : Type) : Type :=
  | Ok (a : A)
  | Raise (e : exn)
  | OutOfFuel.
Arguments Ok {A} _.
Arguments Raise {A} _.
Arguments OutOfFuel {A}.

Section Engine.

Context `{RE : RulesEngine}.

Abbreviation board_t := (Board Position Move).

(** [board.push(move)] *)
Definition push_board (board : board_t) (move : Move) : board_t :=
  mkBoard (apply_move (position board) move)
          ((move, position board) :: move_stack board).

(** [board.pop()]: [None] stands for the [IndexError] of an empty stack. *)
Definition pop_board (board : board_t) : option (Move * board_t) :=
  match move_stack board with
  | [] => None
  | (move, p) :: rest => Some (move, mkBoard p rest)
  end.

(** [board.copy(stack=False)] *)
Definition copy_no_stack (board : board_t) : board_t :=
  mkBoard (position board) [].

(** ** The engine object

    [color] and [maxDepth] are set once by [__init__]; the board and the
    transposition table are mutated and live in [Store]. *)

Record Engine : Type := mkEngine { color : Color; maxDepth : Z }.

(** ** Position evaluator *)

Open Scope Q_scope.

(** [len(...)] as a number. *)
Definition len {A : Type} (l : list A) : Q := inject_Z (Z.of_nat (length l)).

Definition pieceValue (piece_type : PieceType) : Q :=
  match piece_type with
  | PAWN => 1
  | ROOK => 5.25
  | BISHOP => 3.5
  | KNIGHT => 3.5
  | QUEEN => 9
  | KING => 0
  end.

Definition materialEvaluation (self : Engine) (board : board_t) : Q :=
  fold_left
    (fun score piece_type =>
       let score := score + len (pieces board piece_type (color self)) * pieceValue piece_type in
       let score := score - len (pieces board piece_type (negb (color self))) * pieceValue piece_type in
       score)
    PIECE_TYPES 0.

Definition mateOpportunity (self : Engine) (board : board_t) : Q :=
  match legal_moves board with
  | [] => if Bool.eqb (turn board) (color self) then - 1e9 else 1e9
  | _ :: _ => 0
  end.

Definition center_squares : list Square := [D4; D5; E4; E5].

Definition piece_weights (piece_type : PieceType) : Q :=
  match piece_type with
  | PAWN => 0.2
  | KNIGHT => 0.25
  | BISHOP => 0.25
  | ROOK => 0.15
  | QUEEN => 0.3
  | KING => 0.025
  end.

Definition center_control (self : Engine) (board : board_t) : Q :=
  fold_left
    (fun score square =>
       match piece_at board square with
       | Some piece =>
           let weight := piece_weights (piece_type piece) in
           score + (if Bool.eqb (piece_color piece) (color self) then weight else - weight)
       | None => score
       end)
    center_squares 0.

Definition opening_book (self : Engine) (board : board_t) : Q :=
  if (fullmove_number board <? 10)%Z then
    let multiplier := if Bool.eqb (turn board) (color self) then 1 / 30 else -1 / 30 in
    len (legal_moves board) * multiplier
  else 0.

Definition evalFunct (self : Engine) (board : board_t) : Q :=
  materialEvaluation self board + mateOpportunity self board
  + opening_book self board + center_control self board.

Close Scope Q_scope.

(** ** Mutable state and exceptions

    [engine] and [orderMoves] work on the board object they are handed and on
    [self.transposition_table], a dict from position hash to score. *)

Record Store : Type := mkStore {
  board : board_t;
  transposition_table : gmap Z Score
}.

Definition M (A : Type) : Type := Store -> outcome (A * Store).

Definition ret_M {A : Type} (a : A) : M A := fun s => Ok (a, s).

Definition bind_M {A B : Type} (f : A -> M B) (m : M A) : M B :=
  fun s =>
    match m s with
    | Ok (a, s') => f a s'
    | Raise e => Raise e
    | OutOfFuel => OutOfFuel
    end.

#[global] Instance M_ret : MRet M := @ret_M.
#[global] Instance M_bind : MBind M := @bind_M.

Definition get_board : M board_t := fun s => Ok (board s, s).

Definition get_table : M (gmap Z Score) := fun s => Ok (transposition_table s, s).

(** [self.transposition_table[board_hash] = value] *)
Definition set_table (board_hash : Z) (value : Score) : M unit :=
  fun s => Ok (tt, mkStore (board s) (<[board_hash := value]> (transposition_table s))).

Definition push (move : Move) : M unit :=
  fun s => Ok (tt, mkStore (push_board (board s) move) (transposition_table s)).

Definition pop : M Move :=
  fun s =>
    match pop_board (board s) with
    | Some (move, b) => Ok (move, mkStore b (transposition_table s))
    | None => Raise IndexError
    end.

Definition out_of_fuel {A : Type} : M A := fun _ => OutOfFuel.

(** ** Move orderer *)

(** [move_scores[move]] on a [defaultdict(int)] *)
Definition get_score (move_scores : gmap Move Z) (move : Move) : Z :=
  default 0%Z (move_scores !! move).

(** [move_scores[move] += n] *)
Definition add_score (move_scores : gmap Move Z) (move : Move) (n : Z) : gmap Move Z :=
  <[move := (get_score move_scores move + n)%Z]> move_scores.

(** [sorted(l, key=key, reverse=True)]: descending by key, and stable (equal
    keys keep the order of [l]). *)
Fixpoint insert_desc {A : Type} (key : A -> Z) (x : A) (l : list A) : list A :=
  match l with
  | [] => [x]
  | y :: ys => if (key x <? key y)%Z then y :: insert_desc key x ys else x :: y :: ys
  end.

Definition sorted_reverse {A : Type} (key : A -> Z) (l : list A) : list A :=
  foldr (insert_desc key) [] l.

(** The body of the scoring loop of [orderMoves]. *)
Definition score_move (move_scores : gmap Move Z) (move : Move) : M (gmap Move Z) :=
  board ← get_board;
  let move_scores :=
    if is_capture board move then add_score move_scores move 100 else move_scores in
  push move;;
  board ← get_board;
  let move_scores :=
    if is_check board then add_score move_scores move 50 else move_scores in
  pop;;
  mret move_scores.

Fixpoint score_moves (moves : list Move) (move_scores : gmap Move Z) : M (gmap Move Z) :=
  match moves with
  | [] => mret move_scores
  | move :: rest => move_scores ← score_move move_scores move; score_moves rest move_scores
  end.

Definition orderMoves : M (list Move) :=
  board ← get_board;
  move_scores ← score_moves (legal_moves board) ∅;
  board ← get_board;
  mret (sorted_reverse (get_score move_scores) (legal_moves board)).

(** The rank the specification gives a move: 100 for a capture, 50 more if
    the move gives check. *)
Definition move_score (board : board_t) (move : Move) : Z :=
  ((if is_capture board move then 100 else 0)
   + (if is_check (push_board board move) then 50 else 0))%Z.

(** ** Search core *)

(** The loop of a maximizing node; [rec alpha beta] is the recursive call
    [self.engine(board, alpha, beta, depth - 1)]. *)
Fixpoint max_loop (rec : Score -> Score -> M Score) (moves : list Move)
    (value alpha beta : Score) : M Score :=
  match moves with
  | [] => mret value
  | move :: rest =>
      push move;;
      r ← rec alpha beta;
      let value := pymax value r in
      pop;;
      let alpha := pymax alpha value in
      if sleb beta alpha then mret value
      else max_loop rec rest value alpha beta
  end.

(** The loop of a minimizing node. *)
Fixpoint min_loop (rec : Score -> Score -> M Score) (moves : list Move)
    (value alpha beta : Score) : M Score :=
  match moves with
  | [] => mret value
  | move :: rest =>
      push move;;
      r ← rec alpha beta;
      let value := pymin value r in
      pop;;
      let beta := pymin beta value in
      if sleb beta alpha then mret value
      else min_loop rec rest value alpha beta
  end.

Fixpoint engine (fuel : nat) (self : Engine) (alpha beta : Score) (depth : Z) : M Score :=
  match fuel with
  | O => out_of_fuel
  | S fuel =>
      board ← get_board;
      if (depth =? 0)%Z || is_game_over board then mret (Fin (evalFunct self board))
      else
        let board_hash := zobrist_hash board in
        table ← get_table;
        match table !! board_hash with
        | Some cached => mret cached
        | None =>
            value ←
              (if Bool.eqb (turn board) (color self) then
                 moves ← orderMoves;
                 max_loop (fun alpha beta => engine fuel self alpha beta (depth - 1))
                          moves (Fin (-99999)) alpha beta
               else
                 moves ← orderMoves;
                 min_loop (fun alpha beta => engine fuel self alpha beta (depth - 1))
                          moves (Fin 9999999999) alpha beta);
            set_table board_hash value;;
            mret value
        end
  end.

(** A call that restores the board: it returns with the board it was given,
    it does not raise, and it runs out of fuel only when [X] holds. *)
Definition restores {A : Type} (X : Prop) (o : outcome (A * Store)) (s : Store) : Prop :=
  match o with
  | Ok (_, s') => board s' = board s
  | Raise _ => False
  | OutOfFuel => X
  end.

(** ** Root dispatcher *)

Definition evaluateMove (fuel : nat) (self : Engine) (move : Move) (alpha beta : Score) : M Score :=
  push move;;
  move_value ← engine fuel self alpha beta (maxDepth self - 1);
  pop;;
  mret move_value.

(** What [future.result()] gives: the value, or the exception of the worker. *)
Inductive future_result : Type :=
  | Returned (move_value : Score)
  | Failed (e : exn).

(** The workers of the thread pool.  Each runs [evaluateMove] on its own
    [board.copy(stack=False)]; all share the transposition table.  The
    model runs the workers one after the other, in the order [order] in
    which they complete: interleavings inside a worker are not modelled. *)
Fixpoint run_workers (fuel : nat) (self : Engine) (root : board_t) (alpha beta : Score)
    (order : list Move) (table : gmap Z Score)
    : outcome (list (Move * future_result) * gmap Z Score) :=
  match order with
  | [] => Ok ([], table)
  | move :: rest =>
      match evaluateMove fuel self move alpha beta (mkStore (copy_no_stack root) table) with
      | OutOfFuel => OutOfFuel
      | Raise e =>
          match run_workers fuel self root alpha beta rest table with
          | Ok (done, table') => Ok ((move, Failed e) :: done, table')
          | Raise e' => Raise e'
          | OutOfFuel => OutOfFuel
          end
      | Ok (move_value, s) =>
          match run_workers fuel self root alpha beta rest (transposition_table s) with
          | Ok (done, table') => Ok ((move, Returned move_value) :: done, table')
          | Raise e' => Raise e'
          | OutOfFuel => OutOfFuel
          end
      end
  end.

(** The loop over [as_completed(...)]: a failed future is reported and
    dropped. *)
Fixpoint pick_best (completed : list (Move * future_result))
    (best_move : option Move) (best_value : Score) : option Move :=
  match completed with
  | [] => best_move
  | (move, Returned move_value) :: rest =>
      if sltb best_value move_value then pick_best rest (Some move) move_value
      else pick_best rest best_move best_value
  | (move, Failed _) :: rest => pick_best rest best_move best_value
  end.

(** [getBestMove]; [schedule] gives the order in which the futures submitted
    for [move_list] complete.  [None] is Python's [None]. *)
Definition getBestMove (fuel : nat) (self : Engine) (schedule : list Move -> list Move)
    : M (option Move) :=
  fun s =>
    let best_move := None in
    let best_value := NegInf in
    let alpha := NegInf in
    let beta := PosInf in
    let move_list := legal_moves (board s) in
    match run_workers fuel self (board s) alpha beta (schedule move_list)
                      (transposition_table s) with
    | Ok (completed, table) =>
        Ok (pick_best completed best_move best_value, mkStore (board s) table)
    | Raise e => Raise e
    | OutOfFuel => OutOfFuel
    end.

(** ** The reference: full minimax

    The unpruned, uncached traversal the specification compares the search
    core with: same evaluator, same base case, same choice of maximizing or
    minimizing by the side to move; the value of a node is the maximum or the
    minimum over all its children. *)

Definition maximum (l : list Score) : Score := fold_left pymax l NegInf.
Definition minimum (l : list Score) : Score := fold_left pymin l PosInf.

Fixpoint minimax (self : Engine) (depth : nat) (board : board_t) : Score :=
  match depth with
  | O => Fin (evalFunct self board)
  | S depth =>
      if is_game_over board then Fin (evalFunct self board)
      else
        let values := map (fun move => minimax self depth (push_board board move))
                          (legal_moves board) in
        if Bool.eqb (turn board) (color self) then maximum values else minimum values
  end.

(** The hashes of the positions of the tree below [board] at which the search
    core consults the transposition table: those that are not leaves. *)
Fixpoint inner_hashes (depth : nat) (board : board_t) : list Z :=
  match depth with
  | O => []
  | S depth =>
      if is_game_over board then []
      else zobrist_hash board
           :: flat_map (fun move => inner_hashes depth (push_board board move))
                       (legal_moves board)
  end.

(** The initial values of the running maximum and minimum do not cut into the
    tree: every maximizing inner node is worth at least -99999, every
    minimizing one at most 9999999999. *)
Fixpoint within_sentinels (self : Engine) (depth : nat) (board : board_t) : Prop :=
  match depth with
  | O => True
  | S depth' =>
      if is_game_over board then True
      else
        (if Bool.eqb (turn board) (color self)
         then sle (Fin (-99999)) (minimax self depth board)
         else sle (minimax self depth board) (Fin 9999999999))
        /\ Forall (fun move => within_sentinels self depth' (push_board board move))
                  (legal_moves board)
  end.

End Engine.

(** ** Synthetic games

    A Rules Engine whose positions are the nodes of an explicit finite game
    tree: a node carries its hash, the side to move, the numbers of white and
    black pawns, the full-move counter and whether the side to move is in
    check; a move is the index of a child, flagged as a capture or not. *)

Module Synthetic.

Record NodeInfo : Type := mkInfo {
  n_hash : Z;
  n_turn : Color;
  n_white_pawns : nat;
  n_black_pawns : nat;
  n_fullmove : Z;
  n_check : bool;
  (** the move into this node takes a piece *)
  n_capture : bool
}.

#[local] Unset Elimination Schemes.
Inductive GameTree : Type :=
  | Node (info : NodeInfo) (children : list GameTree).
#[local] Set Elimination Schemes.

Definition info_of (t : GameTree) : NodeInfo := match t with Node i _ => i end.
Definition children_of (t : GameTree) : list GameTree :=
  match t with Node _ c => c end.

Definition child (t : GameTree) (i : nat) : GameTree :=
  match children_of t !! i with
  | Some c => c
  | None => t
  end.

#[export] Instance rules : RulesEngine := {|
  Position := GameTree;
  Move := nat;
  apply_move := child;
  legal_moves := fun b => List.seq 0 (length (children_of (position b)));
  is_capture := fun b m => n_capture (info_of (child (position b) m));
  is_check := fun b => n_check (info_of (position b));
  is_game_over := fun b => match children_of (position b) with [] => true | _ => false end;
  turn := fun b => n_turn (info_of (position b));
  fullmove_number := fun b => n_fullmove (info_of (position b));
  zobrist_hash := fun b => n_hash (info_of (position b));
  pieces := fun b pt c =>
    match pt with
    | PAWN => map Z.of_nat (List.seq 0 (if c then n_white_pawns (info_of (position b))
                                        else n_black_pawns (info_of (position b))))
    | _ => []
    end;
  piece_at := fun _ _ => None
|}.

Definition start (t : GameTree) : Board Position Move := mkBoard t [].

Definition white : Engine := mkEngine true 3.

(** A quiet node: [w] white pawns against none, after move 10. *)
Definition quiet (h : Z) (c : Color) (w : nat) (children : list GameTree) : GameTree :=
  Node (mkInfo h c w 0 10 false false) children.

(** A position without legal moves, White to move, on move 5. *)
Definition mated : GameTree := Node (mkInfo 9 true 3 1 5 true false) [].

(** A leaf of the search with [w] white pawns: it still has a legal move, so
    its evaluation has no mate term. *)
Definition leaf (h : Z) (c : Color) (w : nat) : GameTree := quiet h c w [quiet 0 (negb c) w []].

(** A tree in which one position, [shared], is reached along two paths:
    [root -> left -> shared] and [root -> right -> shared]. *)
Definition shared : GameTree := quiet 5 true 0 [leaf 7 false 10; leaf 8 false 20].
Definition left : GameTree := quiet 2 false 0 [quiet 4 true 0 [leaf 6 false 5]; shared].
Definition right : GameTree := quiet 3 false 0 [shared].
Definition transposing : GameTree := quiet 1 true 0 [left; right].

(** A tree of depth 2 without repeated positions. *)
Definition plain : GameTree :=
  quiet 1 true 0
    [ quiet 2 false 0 [leaf 3 true 5; leaf 4 true 7];
      quiet 5 false 0 [leaf 6 true 2; leaf 7 true 9] ].

(** White to move; the only move lets Black mate at once. *)
Definition losing : GameTree :=
  quiet 1 true 0 [quiet 2 false 0 [Node (mkInfo 3 true 0 0 10 true false) []]].

(** Six moves: quiet, check, capture, capture with check, quiet, capture. *)
Definition tactical : GameTree :=
  quiet 1 true 0
    [ Node (mkInfo 2 false 0 0 10 false false) [];
      Node (mkInfo 3 false 0 0 10 true false) [];
      Node (mkInfo 4 false 0 0 10 false true) [];
      Node (mkInfo 5 false 0 0 10 true true) [];
      Node (mkInfo 6 false 0 0 10 false false) [];
      Node (mkInfo 7 false 0 0 10 false true) [] ].

End Synthetic.

(** * Properties *)

(** ** The order on scores *)

Lemma sle_spec (a b : Score) :
  sle a b <->
  match a, b with
  | NegInf, _ => True
  | _, PosInf => True
  | Fin p, Fin q => (p <= q)%Q
  | _, _ => False
  end.
Proof.
  unfold sle; destruct a, b; simpl; rewrite ?Qle_bool_iff; intuition congruence.
Qed.

Lemma slt_spec (a b : Score) :
  slt a b <->
  match a, b with
  | _, NegInf => False
  | PosInf, _ => False
  | Fin p, Fin q => (p < q)%Q
  | _, _ => True
  end.
Proof.
  unfold slt, sltb; rewrite negb_true_iff, <- not_true_iff_false.
  fold (sle b a); rewrite sle_spec.
  destruct a, b; try tauto.
  split; [apply Qnot_le_lt | apply Qlt_not_le].
Qed.

Lemma score_eq_spec (a b : Score) : score_eq a b <-> sle a b /\ sle b a.
Proof. unfold score_eq, seqb, sle. apply andb_true_iff. Qed.

Ltac score_unfold :=
  rewrite ?score_eq_spec in *; rewrite ?sle_spec, ?slt_spec in *.

Lemma sleb_false (a b : Score) : sleb a b = false <-> slt b a.
Proof. unfold slt, sltb. rewrite negb_true_iff. tauto. Qed.

Lemma sltb_false (a b : Score) : sltb a b = false <-> sle b a.
Proof. unfold sle, sltb. rewrite negb_false_iff. tauto. Qed.

Module ScoreOrderFacts.

#[global] Instance eq_equiv : Equivalence score_eq.
Proof.
  split.
  - intros a; score_unfold; destruct a; simpl; auto; split; apply Qle_refl.
  - intros a b; rewrite !score_eq_spec; tauto.
  - intros a b c; score_unfold; destruct a, b, c; simpl; try tauto.
    intros [? ?] [? ?]; split; eapply Qle_trans; eassumption.
Qed.

#[global] Instance lt_strorder : StrictOrder slt.
Proof.
  split.
  - intros a; unfold complement; rewrite slt_spec; destruct a; auto.
    apply Qlt_irrefl.
  - intros a b c; rewrite !slt_spec; destruct a, b, c; try tauto.
    apply Qlt_trans.
Qed.

#[global] Instance lt_compat : Proper (score_eq ==> score_eq ==> iff) slt.
Proof.
  intros a a' Ha b b' Hb; score_unfold.
  destruct a, a', b, b'; simpl in *; try tauto; lra.
Qed.

Lemma le_lteq (x y : Score) : sle x y <-> slt x y \/ score_eq x y.
Proof.
  score_unfold; destruct x, y; simpl; try tauto. lra.
Qed.

Lemma lt_total (x y : Score) : slt x y \/ score_eq x y \/ slt y x.
Proof.
  score_unfold; destruct x, y; simpl; try tauto. lra.
Qed.

End ScoreOrderFacts.

Module ScoreTac := OrdersTac.MakeOrderTac ScoreOrder ScoreOrderFacts.

(** Goals about the order of scores, from hypotheses of the same kind. *)
Ltac sorder := ScoreTac.order.

Lemma pymax_spec (a b : Score) :
  (slt a b /\ pymax a b = b) \/ (sle b a /\ pymax a b = a).
Proof.
  unfold pymax; destruct (sltb a b) eqn:E; [left | right]; split; auto.
  now apply sltb_false.
Qed.

Lemma pymin_spec (a b : Score) :
  (slt b a /\ pymin a b = b) \/ (sle a b /\ pymin a b = a).
Proof.
  unfold pymin; destruct (sltb b a) eqn:E; [left | right]; split; auto.
  now apply sltb_false.
Qed.

(** ** Sorting by key *)

Section Sorting.

Context {A : Type} (key : A -> Z).

Lemma insert_desc_perm (x : A) (l : list A) : insert_desc key x l ≡ₚ x :: l.
Proof.
  induction l as [|y ys IH]; simpl; [reflexivity|].
  destruct (key x <? key y)%Z; [|reflexivity].
  rewrite IH. apply perm_swap.
Qed.

Lemma sorted_reverse_perm (l : list A) : sorted_reverse key l ≡ₚ l.
Proof.
  induction l as [|x l IH]; simpl; [reflexivity|].
  rewrite insert_desc_perm. now rewrite IH.
Qed.

Lemma insert_desc_sorted (x : A) (l : list A) :
  StronglySorted (fun a b => (key b <= key a)%Z) l ->
  StronglySorted (fun a b => (key b <= key a)%Z) (insert_desc key x l).
Proof.
  induction 1 as [|y ys Hs IH Hy]; simpl.
  - repeat constructor.
  - destruct (Z.ltb_spec (key x) (key y)).
    + constructor; [exact IH|].
      rewrite insert_desc_perm. constructor; [lia | exact Hy].
    + constructor; [now constructor|].
      constructor; [lia|].
      eapply Forall_impl; [exact Hy|]. simpl; intros; lia.
Qed.

Lemma sorted_reverse_sorted (l : list A) :
  StronglySorted (fun a b => (key b <= key a)%Z) (sorted_reverse key l).
Proof.
  induction l as [|x l IH]; simpl; [constructor|].
  now apply insert_desc_sorted.
Qed.

Lemma insert_desc_stable (k : Z) (x : A) (l : list A) :
  filter (fun a => key a = k) (insert_desc key x l) = filter (fun a => key a = k) (x :: l).
Proof.
  induction l as [|y ys IH]; simpl; [reflexivity|].
  destruct (Z.ltb_spec (key x) (key y)); [|reflexivity].
  rewrite filter_cons, IH, !filter_cons.
  destruct (decide (key y = k)), (decide (key x = k)); try reflexivity; lia.
Qed.

Lemma sorted_reverse_stable (k : Z) (l : list A) :
  filter (fun a => key a = k) (sorted_reverse key l) = filter (fun a => key a = k) l.
Proof.
  induction l as [|x l IH]; simpl; [reflexivity|].
  rewrite insert_desc_stable, !filter_cons, IH. reflexivity.
Qed.

End Sorting.

Lemma sorted_reverse_ext {A : Type} (key key' : A -> Z) (l : list A) :
  Forall (fun a => key a = key' a) l ->
  sorted_reverse key l = sorted_reverse key' l.
Proof.
  induction 1 as [|x l Hx Hl IH]; simpl; [reflexivity|].
  rewrite IH.
  assert (Hin : Forall (fun a => key a = key' a) (sorted_reverse key' l)).
  { now rewrite sorted_reverse_perm. }
  clear IH Hl. induction Hin as [|y ys Hy _ IH]; simpl; [reflexivity|].
  rewrite Hx, Hy, IH. reflexivity.
Qed.

(** ** The monad, the board and the move orderer *)

Section Frame.

Context `{RE : RulesEngine}.

Lemma bind_run {A B : Type} (m : M A) (f : A -> M B) (s : Store) :
  (m ≫= f) s =
  match m s with
  | Ok (a, s') => f a s'
  | Raise e => Raise e
  | OutOfFuel => OutOfFuel
  end.
Proof. reflexivity. Qed.

Lemma store_eta (s : Store) : mkStore (board s) (transposition_table s) = s.
Proof. destruct s; reflexivity. Qed.

Lemma ret_run {A : Type} (a : A) (s : Store) : (mret a : M A) s = Ok (a, s).
Proof. reflexivity. Qed.

Lemma get_board_bind {B : Type} (f : Board Position Move -> M B) (s : Store) :
  (get_board ≫= f) s = f (board s) s.
Proof. reflexivity. Qed.

Lemma get_table_bind {B : Type} (f : gmap Z Score -> M B) (s : Store) :
  (get_table ≫= f) s = f (transposition_table s) s.
Proof. reflexivity. Qed.

Lemma set_table_bind {B : Type} (h : Z) (v : Score) (f : unit -> M B) (s : Store) :
  (set_table h v ≫= f) s
  = f tt (mkStore (board s) (<[h := v]> (transposition_table s))).
Proof. reflexivity. Qed.

Lemma push_bind {B : Type} (move : Move) (f : unit -> M B) (s : Store) :
  (push move ≫= f) s
  = f tt (mkStore (push_board (board s) move) (transposition_table s)).
Proof. reflexivity. Qed.

Lemma pop_bind {B : Type} (move : Move) (f : Move -> M B)
    (b : Board Position Move) (table : gmap Z Score) :
  (pop ≫= f) (mkStore (push_board b move) table) = f move (mkStore b table).
Proof. destruct b; reflexivity. Qed.

(** One speculative apply and undo of the move orderer. *)
Lemma score_move_run (move_scores : gmap Move Z) (move : Move) (s : Store) :
  score_move move_scores move s =
  Ok (let ms := if is_capture (board s) move
                then add_score move_scores move 100 else move_scores in
      if is_check (push_board (board s) move) then add_score ms move 50 else ms, s).
Proof.
  unfold score_move.
  rewrite get_board_bind, push_bind, get_board_bind, pop_bind, ret_run.
  simpl. now rewrite store_eta.
Qed.

Lemma get_score_add (move_scores : gmap Move Z) (move m : Move) (n : Z) :
  get_score (add_score move_scores move n) m
  = (get_score move_scores m + (if decide (m = move) then n else 0))%Z.
Proof.
  unfold add_score, get_score at 1.
  destruct (decide (m = move)) as [->|Hne].
  - rewrite lookup_insert_eq. reflexivity.
  - rewrite lookup_insert_ne by congruence. fold (get_score move_scores m). lia.
Qed.

Lemma score_moves_run (moves : list Move) (move_scores : gmap Move Z) (s : Store) :
  exists move_scores',
    score_moves moves move_scores s = Ok (move_scores', s)
    /\ forall m, get_score move_scores' m
         = (get_score move_scores m
            + Z.of_nat (count_occ Move_eq_dec moves m) * move_score (board s) m)%Z.
Proof.
  revert move_scores; induction moves as [|move rest IH]; intros move_scores; simpl.
  - eexists; split; [reflexivity|]. intros; lia.
  - rewrite bind_run, score_move_run.
    destruct (IH (let ms := if is_capture (board s) move
                            then add_score move_scores move 100 else move_scores in
                  if is_check (push_board (board s) move)
                  then add_score ms move 50 else ms)) as (ms' & Hrun & Hms').
    exists ms'; split; [exact Hrun|].
    intros m. rewrite Hms'. clear Hms' Hrun. simpl.
    unfold move_score.
    destruct (Move_eq_dec move m) as [->|Hne].
    + destruct (is_capture (board s) m), (is_check (push_board (board s) m));
        rewrite ?get_score_add; rewrite ?decide_True by reflexivity; lia.
    + destruct (is_capture (board s) move), (is_check (push_board (board s) move));
        rewrite ?get_score_add; rewrite ?decide_False by congruence; lia.
Qed.

(** [orderMoves] leaves the store as it found it and returns the legal moves,
    sorted on the tally of the scoring loop. *)
Lemma orderMoves_run (s : Store) :
  exists move_scores,
    orderMoves s
    = Ok (sorted_reverse (get_score move_scores) (legal_moves (board s)), s)
    /\ forall m, get_score move_scores m
         = (Z.of_nat (count_occ Move_eq_dec (legal_moves (board s)) m)
            * move_score (board s) m)%Z.
Proof.
  unfold orderMoves. rewrite get_board_bind, bind_run.
  destruct (score_moves_run (legal_moves (board s)) ∅ s) as (ms & -> & Hms).
  exists ms; split; [reflexivity|].
  intros m; rewrite Hms. unfold get_score at 1. rewrite lookup_empty. simpl. lia.
Qed.

Lemma orderMoves_perm (s : Store) :
  exists moves, orderMoves s = Ok (moves, s) /\ moves ≡ₚ legal_moves (board s).
Proof.
  destruct (orderMoves_run s) as (ms & Hrun & _).
  eexists; split; [exact Hrun|]. apply sorted_reverse_perm.
Qed.

(** *** Push and pop are paired in the search core *)

Lemma restores_Ok {A : Type} (X : Prop) (o : outcome (A * Store)) (s : Store) :
  restores X o s -> ~ X ->
  exists a table, o = Ok (a, mkStore (board s) table).
Proof.
  destruct o as [[a [b table]]| |]; simpl; intros H HX; try tauto.
  subst b. now exists a, table.
Qed.

Lemma max_loop_restores (X : Prop) (rec : Score -> Score -> M Score) :
  (forall alpha beta s, restores X (rec alpha beta s) s) ->
  forall moves value alpha beta s,
    restores X (max_loop rec moves value alpha beta s) s.
Proof.
  intros Hrec moves; induction moves as [|move rest IH]; intros value alpha beta s.
  - reflexivity.
  - simpl. rewrite push_bind, bind_run.
    specialize (Hrec alpha beta
      (mkStore (push_board (board s) move) (transposition_table s))).
    destruct (rec alpha beta _) as [[r [b table]]| |]; simpl in Hrec; try tauto.
    subst b. rewrite pop_bind.
    destruct (sleb beta (pymax alpha (pymax value r))).
    + reflexivity.
    + apply (IH _ _ _ (mkStore (board s) table)).
Qed.

Lemma min_loop_restores (X : Prop) (rec : Score -> Score -> M Score) :
  (forall alpha beta s, restores X (rec alpha beta s) s) ->
  forall moves value alpha beta s,
    restores X (min_loop rec moves value alpha beta s) s.
Proof.
  intros Hrec moves; induction moves as [|move rest IH]; intros value alpha beta s.
  - reflexivity.
  - simpl. rewrite push_bind, bind_run.
    specialize (Hrec alpha beta
      (mkStore (push_board (board s) move) (transposition_table s))).
    destruct (rec alpha beta _) as [[r [b table]]| |]; simpl in Hrec; try tauto.
    subst b. rewrite pop_bind.
    destruct (sleb (pymin beta (pymin value r)) alpha).
    + reflexivity.
    + apply (IH _ _ _ (mkStore (board s) table)).
Qed.

(** One unfolding of [engine] at a node that is searched. *)
Lemma engine_step (fuel : nat) (self : Engine) (alpha beta : Score) (depth : Z) (s : Store) :
  (depth =? 0)%Z || is_game_over (board s) = false ->
  transposition_table s !! zobrist_hash (board s) = None ->
  engine (S fuel) self alpha beta depth s =
  match
    (if Bool.eqb (turn (board s)) (color self) then
       moves ← orderMoves;
       max_loop (fun alpha beta => engine fuel self alpha beta (depth - 1))
                moves (Fin (-99999)) alpha beta
     else
       moves ← orderMoves;
       min_loop (fun alpha beta => engine fuel self alpha beta (depth - 1))
                moves (Fin 9999999999) alpha beta) s
  with
  | Ok (value, s') =>
      Ok (value, mkStore (board s')
                   (<[zobrist_hash (board s) := value]> (transposition_table s')))
  | Raise e => Raise e
  | OutOfFuel => OutOfFuel
  end.
Proof.
  intros Hbase Hmiss. simpl.
  rewrite get_board_bind, Hbase, get_table_bind, Hmiss, bind_run.
  destruct (_ s) as [[value s']| |]; reflexivity.
Qed.

(** The two loops of a node, whichever is taken. *)
Lemma branch_restores (X : Prop) (rec : Score -> Score -> M Score) (maximizing : bool)
    (lo hi alpha beta : Score) (s : Store) :
  (forall alpha beta s, restores X (rec alpha beta s) s) ->
  restores X
    ((if maximizing then moves ← orderMoves; max_loop rec moves lo alpha beta
      else moves ← orderMoves; min_loop rec moves hi alpha beta) s) s.
Proof.
  intros Hrec. destruct (orderMoves_perm s) as (moves & Hord & _).
  destruct maximizing; rewrite bind_run, Hord.
  - now apply max_loop_restores.
  - now apply min_loop_restores.
Qed.

Lemma engine_restores (fuel : nat) (self : Engine) :
  forall (depth : Z) (alpha beta : Score) (s : Store),
    restores ((fuel <= Z.to_nat depth)%nat \/ (depth < 0)%Z)
             (engine fuel self alpha beta depth s) s.
Proof.
  induction fuel as [|fuel IH]; intros depth alpha beta s.
  - simpl. left. lia.
  - destruct ((depth =? 0)%Z || is_game_over (board s)) eqn:Hbase.
    { simpl. rewrite get_board_bind, Hbase. reflexivity. }
    destruct (transposition_table s !! zobrist_hash (board s)) as [cached|] eqn:Hhit.
    { simpl. rewrite get_board_bind, Hbase, get_table_bind, Hhit. reflexivity. }
    rewrite engine_step by assumption.
    apply orb_false_iff in Hbase as [Hd _]. apply Z.eqb_neq in Hd.
    set (X := (S fuel <= Z.to_nat depth)%nat \/ (depth < 0)%Z).
    assert (Hrec : forall a b s0,
               restores X (engine fuel self a b (depth - 1) s0) s0).
    { intros a b s0. specialize (IH (depth - 1)%Z a b s0).
      destruct (engine fuel self a b (depth - 1) s0) as [[? ?]| |]; simpl in *; auto.
      unfold X. lia. }
    pose proof (branch_restores X _ (Bool.eqb (turn (board s)) (color self))
                  (Fin (-99999)) (Fin 9999999999) alpha beta s Hrec) as H.
    destruct (_ s) as [[v s']| |]; simpl in *; auto.
Qed.

End Frame.

(** ** Pruning against full minimax *)

Lemma sle_NegInf (x : Score) : sle NegInf x.
Proof. reflexivity. Qed.

Lemma sle_PosInf (x : Score) : sle x PosInf.
Proof. destruct x; reflexivity. Qed.

Lemma fold_pymax_le (l : list Score) (a x : Score) :
  sle (fold_left pymax l a) x <-> sle a x /\ Forall (fun y => sle y x) l.
Proof.
  revert a; induction l as [|y l IH]; intros a; simpl.
  - rewrite Forall_nil. tauto.
  - rewrite IH, Forall_cons.
    destruct (pymax_spec a y) as [[H ->]|[H ->]]; intuition; sorder.
Qed.

Lemma le_fold_pymax (l : list Score) (a x : Score) :
  sle x (fold_left pymax l a) <-> sle x a \/ Exists (fun y => sle x y) l.
Proof.
  revert a; induction l as [|y l IH]; intros a; simpl.
  - rewrite Exists_nil. tauto.
  - rewrite IH, Exists_cons.
    destruct (pymax_spec a y) as [[H ->]|[H ->]]; intuition;
      solve [ left; sorder | right; left; sorder ].
Qed.

Lemma fold_pymin_le (l : list Score) (a x : Score) :
  sle (fold_left pymin l a) x <-> sle a x \/ Exists (fun y => sle y x) l.
Proof.
  revert a; induction l as [|y l IH]; intros a; simpl.
  - rewrite Exists_nil. tauto.
  - rewrite IH, Exists_cons.
    destruct (pymin_spec a y) as [[H ->]|[H ->]]; intuition;
      solve [ left; sorder | right; left; sorder ].
Qed.

Lemma le_fold_pymin (l : list Score) (a x : Score) :
  sle x (fold_left pymin l a) <-> sle x a /\ Forall (fun y => sle x y) l.
Proof.
  revert a; induction l as [|y l IH]; intros a; simpl.
  - rewrite Forall_nil. tauto.
  - rewrite IH, Forall_cons.
    destruct (pymin_spec a y) as [[H ->]|[H ->]]; intuition; sorder.
Qed.

Lemma maximum_le (l : list Score) (x : Score) :
  sle (maximum l) x <-> Forall (fun y => sle y x) l.
Proof. unfold maximum. rewrite fold_pymax_le. pose proof (sle_NegInf x). tauto. Qed.

Lemma le_maximum (l : list Score) (x : Score) :
  Exists (fun y => sle x y) l -> sle x (maximum l).
Proof. unfold maximum. rewrite le_fold_pymax. tauto. Qed.

Lemma le_minimum (l : list Score) (x : Score) :
  sle x (minimum l) <-> Forall (fun y => sle x y) l.
Proof. unfold minimum. rewrite le_fold_pymin. pose proof (sle_PosInf x). tauto. Qed.

Lemma minimum_le (l : list Score) (x : Score) :
  Exists (fun y => sle y x) l -> sle (minimum l) x.
Proof. unfold minimum. rewrite fold_pymin_le. tauto. Qed.

Lemma pymax_fin (a b : Score) :
  slt NegInf a /\ slt a PosInf -> slt NegInf b /\ slt b PosInf ->
  slt NegInf (pymax a b) /\ slt (pymax a b) PosInf.
Proof. intros; destruct (pymax_spec a b) as [[_ ->]|[_ ->]]; assumption. Qed.

Lemma pymin_fin (a b : Score) :
  slt NegInf a /\ slt a PosInf -> slt NegInf b /\ slt b PosInf ->
  slt NegInf (pymin a b) /\ slt (pymin a b) PosInf.
Proof. intros; destruct (pymin_spec a b) as [[_ ->]|[_ ->]]; assumption. Qed.

Lemma Fin_fin (q : Q) : slt NegInf (Fin q) /\ slt (Fin q) PosInf.
Proof. split; reflexivity. Qed.

Section Loops.

Context `{RE : RulesEngine}.

Variables (self : Engine) (rec : Score -> Score -> M Score).
Variables (d : nat) (b : Board Position Move).

(** What the recursive call does on the child reached by [move], as long as
    the table holds none of the hashes below that child: it returns a finite
    score that bounds the minimax value of the child from above when it is
    under [beta] and from below when it is over [alpha]; the board is
    restored, and the table grows by hashes of that subtree only. *)
Hypothesis Hrec : forall move table alpha beta,
  slt alpha beta ->
  (forall h, h ∈ inner_hashes d (push_board b move) -> table !! h = None) ->
  NoDup (inner_hashes d (push_board b move)) ->
  within_sentinels self d (push_board b move) ->
  exists r table',
    rec alpha beta (mkStore (push_board b move) table)
    = Ok (r, mkStore (push_board b move) table')
    /\ (slt NegInf r /\ slt r PosInf)
    /\ (slt r beta -> sle (minimax self d (push_board b move)) r)
    /\ (slt alpha r -> sle r (minimax self d (push_board b move)))
    /\ (forall h, table' !! h <> None ->
          table !! h <> None \/ h ∈ inner_hashes d (push_board b move)).

Lemma max_loop_bounds (moves : list Move) :
  forall value alpha beta table,
    slt alpha beta ->
    slt NegInf value /\ slt value PosInf ->
    (forall h, h ∈ flat_map (fun m => inner_hashes d (push_board b m)) moves ->
               table !! h = None) ->
    NoDup (flat_map (fun m => inner_hashes d (push_board b m)) moves) ->
    Forall (fun m => within_sentinels self d (push_board b m)) moves ->
    exists r table',
      max_loop rec moves value alpha beta (mkStore b table) = Ok (r, mkStore b table')
      /\ (slt NegInf r /\ slt r PosInf)
      /\ sle value r
      /\ (slt r beta -> Forall (fun m => sle (minimax self d (push_board b m)) r) moves)
      /\ (slt value r -> slt alpha r ->
          Exists (fun m => sle r (minimax self d (push_board b m))) moves)
      /\ (forall h, table' !! h <> None ->
            table !! h <> None
            \/ h ∈ flat_map (fun m => inner_hashes d (push_board b m)) moves).
Proof.
  induction moves as [|move rest IH]; intros value alpha beta table Hab Hfin Hfresh Hnd Hws.
  - exists value, table. simpl.
    split; [reflexivity|]. split; [assumption|]. split; [sorder|].
    split; [intros; constructor|]. split; [intros; sorder|]. auto.
  - simpl in Hnd, Hfresh. apply NoDup_app in Hnd as (Hnd1 & Hdisj & Hnd2).
    apply Forall_cons in Hws as [Hws1 Hws2].
    destruct (Hrec move table alpha beta Hab) as (r1 & table1 & Hrun & Hfin1 & Hup & Hlo & Hdom);
      [intros h Hh; apply Hfresh, elem_of_app; auto | assumption | assumption |].
    simpl. rewrite push_bind, bind_run. simpl. rewrite Hrun, pop_bind.
    set (value1 := pymax value r1).
    set (alpha1 := pymax alpha value1).
    assert (Hv1 : sle value value1 /\ sle r1 value1 /\ (slt value value1 -> value1 = r1)).
    { unfold value1. destruct (pymax_spec value r1) as [[? ->]|[? ->]];
        (split; [sorder|]); (split; [sorder|]); intros; [reflexivity | sorder]. }
    destruct Hv1 as (Hv1a & Hv1b & Hv1c).
    assert (Ha1 : sle alpha alpha1 /\ sle value1 alpha1
                  /\ (alpha1 = alpha \/ alpha1 = value1)).
    { unfold alpha1. destruct (pymax_spec alpha value1) as [[? ->]|[? ->]];
        (split; [sorder|]); (split; [sorder|]); auto. }
    destruct Ha1 as (Ha1a & Ha1b & Ha1c).
    assert (Hfin' : slt NegInf value1 /\ slt value1 PosInf) by now apply pymax_fin.
    destruct (sleb beta alpha1) eqn:Hcut.
    + (* beta cutoff *)
      change (sle beta alpha1) in Hcut.
      exists value1, table1. rewrite ret_run.
      split; [reflexivity|]. split; [assumption|]. split; [assumption|].
      split; [|split].
      * intros Hlt. exfalso. destruct Ha1c as [E|E]; rewrite E in Hcut; sorder.
      * intros Hlt Halpha. apply Exists_cons_hd.
        rewrite (Hv1c Hlt) in *. auto.
      * intros h Hh. destruct (Hdom h Hh); auto. right. apply elem_of_app; auto.
    + apply sleb_false in Hcut.
      destruct (IH value1 alpha1 beta table1 Hcut Hfin') as
        (r & table' & Hrun' & Hfinr & Hle & Hall & Hex & Hdom'); auto.
      { intros h Hh.
        destruct (table1 !! h) eqn:E; [|reflexivity]. exfalso.
        destruct (Hdom h) as [Hin|Hin]; [congruence| |].
        - apply Hin, Hfresh, elem_of_app; auto.
        - apply (Hdisj h Hin Hh). }
      exists r, table'. split; [exact Hrun'|]. split; [assumption|].
      split; [|split; [|split]].
      * sorder.
      * intros Hlt. apply Forall_cons; split; [|auto].
        assert (slt r1 beta) by sorder.
        specialize (Hup H). sorder.
      * intros Hlt Halpha.
        destruct (sleb r value1) eqn:Hcmp.
        -- change (sle r value1) in Hcmp.
           apply Exists_cons_hd.
           assert (Hvv : slt value value1) by sorder.
           pose proof (Hv1c Hvv) as E.
           assert (slt alpha r1) by (rewrite <- E; sorder).
           specialize (Hlo H). rewrite <- E in Hlo. sorder.
        -- apply sleb_false in Hcmp. apply Exists_cons_tl, Hex; [exact Hcmp|].
           destruct Ha1c as [E|E]; rewrite E; assumption.
      * intros h Hh. destruct (Hdom' h Hh) as [Hin|Hin].
        -- destruct (Hdom h Hin); auto. right. apply elem_of_app; auto.
        -- right. apply elem_of_app; auto.
Qed.

Lemma min_loop_bounds (moves : list Move) :
  forall value alpha beta table,
    slt alpha beta ->
    slt NegInf value /\ slt value PosInf ->
    (forall h, h ∈ flat_map (fun m => inner_hashes d (push_board b m)) moves ->
               table !! h = None) ->
    NoDup (flat_map (fun m => inner_hashes d (push_board b m)) moves) ->
    Forall (fun m => within_sentinels self d (push_board b m)) moves ->
    exists r table',
      min_loop rec moves value alpha beta (mkStore b table) = Ok (r, mkStore b table')
      /\ (slt NegInf r /\ slt r PosInf)
      /\ sle r value
      /\ (slt alpha r -> Forall (fun m => sle r (minimax self d (push_board b m))) moves)
      /\ (slt r value -> slt r beta ->
          Exists (fun m => sle (minimax self d (push_board b m)) r) moves)
      /\ (forall h, table' !! h <> None ->
            table !! h <> None
            \/ h ∈ flat_map (fun m => inner_hashes d (push_board b m)) moves).
Proof.
  induction moves as [|move rest IH]; intros value alpha beta table Hab Hfin Hfresh Hnd Hws.
  - exists value, table. simpl.
    split; [reflexivity|]. split; [assumption|]. split; [sorder|].
    split; [intros; constructor|]. split; [intros; sorder|]. auto.
  - simpl in Hnd, Hfresh. apply NoDup_app in Hnd as (Hnd1 & Hdisj & Hnd2).
    apply Forall_cons in Hws as [Hws1 Hws2].
    destruct (Hrec move table alpha beta Hab) as (r1 & table1 & Hrun & Hfin1 & Hup & Hlo & Hdom);
      [intros h Hh; apply Hfresh, elem_of_app; auto | assumption | assumption |].
    simpl. rewrite push_bind, bind_run. simpl. rewrite Hrun, pop_bind.
    set (value1 := pymin value r1).
    set (beta1 := pymin beta value1).
    assert (Hv1 : sle value1 value /\ sle value1 r1 /\ (slt value1 value -> value1 = r1)).
    { unfold value1. destruct (pymin_spec value r1) as [[? ->]|[? ->]];
        (split; [sorder|]); (split; [sorder|]); intros; [reflexivity | sorder]. }
    destruct Hv1 as (Hv1a & Hv1b & Hv1c).
    assert (Hb1 : sle beta1 beta /\ sle beta1 value1
                  /\ (beta1 = beta \/ beta1 = value1)).
    { unfold beta1. destruct (pymin_spec beta value1) as [[? ->]|[? ->]];
        (split; [sorder|]); (split; [sorder|]); auto. }
    destruct Hb1 as (Hb1a & Hb1b & Hb1c).
    assert (Hfin' : slt NegInf value1 /\ slt value1 PosInf) by now apply pymin_fin.
    destruct (sleb beta1 alpha) eqn:Hcut.
    + (* cutoff *)
      change (sle beta1 alpha) in Hcut.
      exists value1, table1. rewrite ret_run.
      split; [reflexivity|]. split; [assumption|]. split; [assumption|].
      split; [|split].
      * intros Hlt. exfalso. destruct Hb1c as [E|E]; rewrite E in Hcut; sorder.
      * intros Hlt Hbeta. apply Exists_cons_hd.
        rewrite (Hv1c Hlt) in *. auto.
      * intros h Hh. destruct (Hdom h Hh); auto. right. apply elem_of_app; auto.
    + apply sleb_false in Hcut.
      destruct (IH value1 alpha beta1 table1 Hcut Hfin') as
        (r & table' & Hrun' & Hfinr & Hle & Hall & Hex & Hdom'); auto.
      { intros h Hh.
        destruct (table1 !! h) eqn:E; [|reflexivity]. exfalso.
        destruct (Hdom h) as [Hin|Hin]; [congruence| |].
        - apply Hin, Hfresh, elem_of_app; auto.
        - apply (Hdisj h Hin Hh). }
      exists r, table'. split; [exact Hrun'|]. split; [assumption|].
      split; [|split; [|split]].
      * sorder.
      * intros Hlt. apply Forall_cons; split; [|auto].
        assert (slt alpha r1) by sorder.
        specialize (Hlo H). sorder.
      * intros Hlt Hbeta.
        destruct (sleb value1 r) eqn:Hcmp.
        -- change (sle value1 r) in Hcmp.
           apply Exists_cons_hd.
           assert (Hvv : slt value1 value) by sorder.
           pose proof (Hv1c Hvv) as E.
           assert (slt r1 beta) by (rewrite <- E; sorder).
           specialize (Hup H). rewrite <- E in Hup. sorder.
        -- apply sleb_false in Hcmp. apply Exists_cons_tl, Hex; [exact Hcmp|].
           destruct Hb1c as [E|E]; rewrite E; assumption.
      * intros h Hh. destruct (Hdom' h Hh) as [Hin|Hin].
        -- destruct (Hdom h Hin); auto. right. apply elem_of_app; auto.
        -- right. apply elem_of_app; auto.
Qed.

End Loops.

Section AlphaBeta.

Context `{RE : RulesEngine}.

Lemma minimax_step (self : Engine) (d : nat) (b : Board Position Move) :
  is_game_over b = false ->
  minimax self (S d) b =
  if Bool.eqb (turn b) (color self)
  then maximum (map (fun move => minimax self d (push_board b move)) (legal_moves b))
  else minimum (map (fun move => minimax self d (push_board b move)) (legal_moves b)).
Proof. intros H; simpl; rewrite H; reflexivity. Qed.

Lemma within_sentinels_step (self : Engine) (d : nat) (b : Board Position Move) :
  is_game_over b = false ->
  within_sentinels self (S d) b ->
  (if Bool.eqb (turn b) (color self)
   then sle (Fin (-99999)) (minimax self (S d) b)
   else sle (minimax self (S d) b) (Fin 9999999999))
  /\ Forall (fun move => within_sentinels self d (push_board b move)) (legal_moves b).
Proof. intros H; simpl; rewrite H; tauto. Qed.

Lemma inner_hashes_step (d : nat) (b : Board Position Move) :
  is_game_over b = false ->
  inner_hashes (S d) b
  = zobrist_hash b
    :: flat_map (fun move => inner_hashes d (push_board b move)) (legal_moves b).
Proof. intros H; simpl; rewrite H; reflexivity. Qed.

(** The search core on a tree without repeated hashes: the value returned
    bounds the minimax value on the side of the window it falls on. *)
Lemma engine_bounds (self : Engine) (d : nat) :
  forall fuel b table alpha beta,
    (d < fuel)%nat ->
    slt alpha beta ->
    (forall h, h ∈ inner_hashes d b -> table !! h = None) ->
    NoDup (inner_hashes d b) ->
    within_sentinels self d b ->
    exists r table',
      engine fuel self alpha beta (Z.of_nat d) (mkStore b table) = Ok (r, mkStore b table')
      /\ (slt NegInf r /\ slt r PosInf)
      /\ (slt r beta -> sle (minimax self d b) r)
      /\ (slt alpha r -> sle r (minimax self d b))
      /\ (forall h, table' !! h <> None -> table !! h <> None \/ h ∈ inner_hashes d b).
Proof.
  induction d as [|d IH]; intros fuel b table alpha beta Hfuel Hab Hfresh Hnd Hws;
    (destruct fuel as [|fuel]; [lia|]).
  - exists (Fin (evalFunct self b)), table. simpl.
    split; [reflexivity|]. split; [apply Fin_fin|].
    split; [intros; sorder|]. split; [intros; sorder|]. auto.
  - destruct (is_game_over b) eqn:Hgo.
    { exists (Fin (evalFunct self b)), table.
      split. { simpl. rewrite get_board_bind. simpl. rewrite Hgo. reflexivity. }
      split; [apply Fin_fin|]. simpl minimax. rewrite Hgo.
      split; [intros; sorder|]. split; [intros; sorder|]. auto. }
    rewrite inner_hashes_step in * by assumption.
    apply within_sentinels_step in Hws as [Hsent Hws]; [|assumption].
    apply NoDup_cons in Hnd as [_ Hnd].
    rewrite engine_step; cbn [board transposition_table];
      [ | rewrite Hgo; reflexivity | apply Hfresh; left ].
    replace (Z.of_nat (S d) - 1)%Z with (Z.of_nat d) by lia.
    destruct (orderMoves_perm (mkStore b table)) as (moves & Hord & Hperm).
    simpl in Hperm.
    assert (Hrec : forall move table alpha beta,
      slt alpha beta ->
      (forall h, h ∈ inner_hashes d (push_board b move) -> table !! h = None) ->
      NoDup (inner_hashes d (push_board b move)) ->
      within_sentinels self d (push_board b move) ->
      exists r table',
        engine fuel self alpha beta (Z.of_nat d) (mkStore (push_board b move) table)
        = Ok (r, mkStore (push_board b move) table')
        /\ (slt NegInf r /\ slt r PosInf)
        /\ (slt r beta -> sle (minimax self d (push_board b move)) r)
        /\ (slt alpha r -> sle r (minimax self d (push_board b move)))
        /\ (forall h, table' !! h <> None ->
              table !! h <> None \/ h ∈ inner_hashes d (push_board b move))).
    { intros; apply IH; auto; lia. }
    assert (Hfresh' : forall h,
      h ∈ flat_map (fun m => inner_hashes d (push_board b m)) moves -> table !! h = None).
    { intros h Hh. apply Hfresh. right. now rewrite <- Hperm. }
    assert (Hnd' : NoDup (flat_map (fun m => inner_hashes d (push_board b m)) moves)).
    { now rewrite Hperm. }
    assert (Hws' : Forall (fun m => within_sentinels self d (push_board b m)) moves).
    { now rewrite Hperm. }
    rewrite minimax_step in * by assumption.
    destruct (Bool.eqb (turn b) (color self)).
    + destruct (max_loop_bounds self
                  (fun alpha beta => engine fuel self alpha beta (Z.of_nat d)) d b Hrec moves (Fin (-99999)) alpha beta table
                  Hab (Fin_fin _) Hfresh' Hnd' Hws')
        as (r & table' & Hrun & Hfin & Hle & Hall & Hex & Hdom).
      cbv iota. rewrite bind_run, Hord, Hrun. simpl.
      exists r, (<[zobrist_hash b := r]> table').
      split; [reflexivity|]. split; [assumption|]. split; [|split].
      * intros Hlt. apply maximum_le, Forall_fmap. rewrite <- Hperm. now apply Hall.
      * intros Hlt. destruct (sleb r (Fin (-99999))) eqn:Hcmp.
        -- change (sle r (Fin (-99999))) in Hcmp. sorder.
        -- apply sleb_false in Hcmp.
           apply le_maximum, Exists_fmap. rewrite <- Hperm. now apply Hex.
      * intros h Hh. destruct (decide (h = zobrist_hash b)) as [->|Hne].
        -- right; left.
        -- rewrite lookup_insert_ne in Hh by congruence.
           destruct (Hdom h Hh); auto. right; right. now rewrite <- Hperm.
    + destruct (min_loop_bounds self
                  (fun alpha beta => engine fuel self alpha beta (Z.of_nat d)) d b Hrec moves (Fin 9999999999) alpha beta table
                  Hab (Fin_fin _) Hfresh' Hnd' Hws')
        as (r & table' & Hrun & Hfin & Hle & Hall & Hex & Hdom).
      cbv iota. rewrite bind_run, Hord, Hrun. simpl.
      exists r, (<[zobrist_hash b := r]> table').
      split; [reflexivity|]. split; [assumption|]. split; [|split].
      * intros Hlt. destruct (sleb (Fin 9999999999) r) eqn:Hcmp.
        -- change (sle (Fin 9999999999) r) in Hcmp. sorder.
        -- apply sleb_false in Hcmp.
           apply minimum_le, Exists_fmap. rewrite <- Hperm. now apply Hex.
      * intros Hlt. apply le_minimum, Forall_fmap. rewrite <- Hperm. now apply Hall.
      * intros h Hh. destruct (decide (h = zobrist_hash b)) as [->|Hne].
        -- right; left.
        -- rewrite lookup_insert_ne in Hh by congruence.
           destruct (Hdom h Hh); auto. right; right. now rewrite <- Hperm.
Qed.

End AlphaBeta.

(** * The claims *)

Section Claims.

Context `{RE : RulesEngine}.

(** C4: at [depth = 0] the search core returns [evalFunct] of the board it
    was given, whatever the window and whatever the transposition table
    holds, and leaves the board and the table as they were.  One unit of
    fuel is enough: no recursive call is made. *)
Theorem engine_depth_zero (fuel : nat) (self : Engine) (alpha beta : Score) (s : Store) :
  engine (S fuel) self alpha beta 0 s = Ok (Fin (evalFunct self (board s)), s).
Proof. reflexivity. Qed.

(** C6: a call of the search core returns with the board it was given (the
    same position and the same move stack), cutoffs included; it never
    raises, and it stops short only when the fuel is not above the depth or
    the depth is negative.  The move orderer, and each of its speculative
    apply and undo steps, leave the store as they found it. *)
Theorem engine_restores_board (fuel : nat) (self : Engine) (alpha beta : Score)
    (depth : Z) (s : Store) (move_scores : gmap Move Z) (move : Move) :
  match engine fuel self alpha beta depth s with
  | Ok (_, s') => board s' = board s
  | Raise _ => False
  | OutOfFuel => (fuel <= Z.to_nat depth)%nat \/ (depth < 0)%Z
  end
  /\ (exists moves, orderMoves s = Ok (moves, s))
  /\ (exists move_scores', score_move move_scores move s = Ok (move_scores', s)).
Proof.
  split; [apply engine_restores|]. split.
  - destruct (orderMoves_perm s) as (moves & H & _). now exists moves.
  - eexists. apply score_move_run.
Qed.

(** C10: [orderMoves] returns a permutation of the legal moves of the
    board. *)
Theorem orderMoves_permutation (s : Store) :
  exists moves, orderMoves s = Ok (moves, s) /\ moves ≡ₚ legal_moves (board s).
Proof. apply orderMoves_perm. Qed.

(** C8: when the Rules Engine lists every legal move once, [orderMoves]
    returns the legal moves in descending order of [move_score] (100 for a
    capture plus 50 for a move that gives check), and moves of equal score
    keep the order of the enumeration. *)
Theorem orderMoves_sorted (s : Store) :
  NoDup (legal_moves (board s)) ->
  exists moves,
    orderMoves s = Ok (moves, s)
    /\ moves ≡ₚ legal_moves (board s)
    /\ StronglySorted
         (fun m1 m2 => (move_score (board s) m2 <= move_score (board s) m1)%Z) moves
    /\ (forall k, filter (fun m => move_score (board s) m = k) moves
                  = filter (fun m => move_score (board s) m = k) (legal_moves (board s)))
    /\ (forall m, move_score (board s) m
                  = ((if is_capture (board s) m then 100 else 0)
                     + (if is_check (push_board (board s) m) then 50 else 0))%Z).
Proof.
  intros Hnd. destruct (orderMoves_run s) as (ms & Hrun & Hms).
  assert (E : sorted_reverse (get_score ms) (legal_moves (board s))
              = sorted_reverse (move_score (board s)) (legal_moves (board s))).
  { apply sorted_reverse_ext, Forall_forall. intros m Hm.
    rewrite Hms.
    apply NoDup_ListNoDup in Hnd.
    rewrite (proj1 (NoDup_count_occ' Move_eq_dec _) Hnd m) by now apply list_elem_of_In.
    lia. }
  rewrite E in Hrun. eexists; split; [exact Hrun|].
  split; [apply sorted_reverse_perm|].
  split; [apply sorted_reverse_sorted|].
  split; [intros k; apply sorted_reverse_stable|].
  reflexivity.
Qed.

(** C9: at a position that is not game over and a depth of at least 1, a call
    of the search core leaves its value in the table under the hash of the
    position, and a second call on the board and table it left, at the same
    depth and with any window, returns that value. *)
Theorem transposition_table_idempotent (fuel : nat) (self : Engine)
    (alpha beta alpha' beta' : Score) (depth : Z) (s : Store) :
  (1 <= depth)%Z ->
  (Z.to_nat depth < fuel)%nat ->
  is_game_over (board s) = false ->
  exists v s',
    engine fuel self alpha beta depth s = Ok (v, s')
    /\ board s' = board s
    /\ transposition_table s' !! zobrist_hash (board s) = Some v
    /\ engine fuel self alpha' beta' depth s' = Ok (v, s').
Proof.
  intros Hd Hfuel Hgo. destruct fuel as [|fuel]; [lia|].
  assert (Hbase : (depth =? 0)%Z || is_game_over (board s) = false).
  { rewrite Hgo, orb_false_r. apply Z.eqb_neq. lia. }
  destruct (transposition_table s !! zobrist_hash (board s)) as [cached|] eqn:Hhit.
  - exists cached, s.
    assert (forall a b, engine (S fuel) self a b depth s = Ok (cached, s)).
    { intros a b. simpl. rewrite get_board_bind, Hbase, get_table_bind, Hhit. reflexivity. }
    auto.
  - rewrite engine_step by assumption.
    assert (Hrec : forall a b s0,
               restores False (engine fuel self a b (depth - 1) s0) s0).
    { intros a b s0. pose proof (engine_restores fuel self (depth - 1) a b s0) as H.
      destruct (engine fuel self a b (depth - 1) s0) as [[? ?]| |]; simpl in *; auto.
      lia. }
    pose proof (branch_restores False
                  (fun alpha beta => engine fuel self alpha beta (depth - 1))
                  (Bool.eqb (turn (board s)) (color self))
                  (Fin (-99999)) (Fin 9999999999) alpha beta s Hrec) as H.
    apply restores_Ok in H as (v & table & ->); [|tauto].
    eexists v, _. split; [reflexivity|]. cbn [board transposition_table].
    split; [reflexivity|]. split; [apply lookup_insert_eq|].
    simpl. rewrite get_board_bind. cbn [board]. rewrite Hbase, get_table_bind.
    cbn [transposition_table]. rewrite lookup_insert_eq. reflexivity.
Qed.

(** C7: the material term seen from one color is the negation of the material
    term seen from the other. *)
Theorem materialEvaluation_antisymmetric (c : Color) (depth depth' : Z)
    (b : Board Position Move) :
  (materialEvaluation (mkEngine c depth) b
   == - materialEvaluation (mkEngine (negb c) depth') b)%Q.
Proof.
  unfold materialEvaluation, PIECE_TYPES. cbn [fold_left color].
  rewrite negb_involutive. ring.
Qed.

(** C5: in a position without legal moves the opening term is 0 and
    [evalFunct] is -1e9 plus the material and center terms when the
    perspective color is to move, +1e9 plus those terms when the opponent
    is; in a position with legal moves the mate term is 0. *)
Theorem evalFunct_without_legal_moves (self : Engine) (b : Board Position Move) :
  (legal_moves b = [] ->
     (opening_book self b == 0
      /\ (turn b = color self ->
          evalFunct self b == - 1e9 + (materialEvaluation self b + center_control self b))
      /\ (turn b <> color self ->
          evalFunct self b == 1e9 + (materialEvaluation self b + center_control self b)))%Q)
  /\ (legal_moves b <> [] -> mateOpportunity self b = 0%Q).
Proof.
  split.
  - intros Hnil.
    assert (Hop : (opening_book self b == 0)%Q).
    { unfold opening_book. rewrite Hnil.
      destruct (fullmove_number b <? 10)%Z; [|reflexivity].
      unfold len; simpl. ring. }
    split; [exact Hop|].
    unfold evalFunct, mateOpportunity. rewrite Hnil, Hop.
    split; intros Hturn.
    + rewrite (proj2 (Bool.eqb_true_iff _ _) Hturn). ring.
    + rewrite (proj2 (Bool.eqb_false_iff _ _) Hturn). ring.
  - unfold mateOpportunity. destruct (legal_moves b); [congruence|reflexivity].
Qed.

(** C3 (amended): when the position has no legal moves, [getBestMove] submits
    no work and returns [None]; the board and the table are untouched and no
    error is raised. *)
Theorem getBestMove_without_legal_moves (fuel : nat) (self : Engine)
    (schedule : list Move -> list Move) (s : Store) :
  legal_moves (board s) = [] ->
  (forall l, schedule l ≡ₚ l) ->
  getBestMove fuel self schedule s = Ok (None, s).
Proof.
  intros Hnil Hperm. unfold getBestMove. rewrite Hnil.
  rewrite (proj1 (Permutation_nil_r _) (Hperm [])). simpl. now rewrite store_eta.
Qed.

(** C1 (amended): for every position and depth, when no hash occurs twice
    among the inner positions of the tree and the initial values of the
    running maximum and minimum do not cut into it, the search core with a
    full window and an empty table returns, with enough fuel, the value of
    the full minimax traversal. *)
Theorem engine_equals_minimax (fuel : nat) (self : Engine) (d : nat)
    (b : Board Position Move) :
  (d < fuel)%nat ->
  NoDup (inner_hashes d b) ->
  within_sentinels self d b ->
  exists v table,
    engine fuel self NegInf PosInf (Z.of_nat d) (mkStore b ∅) = Ok (v, mkStore b table)
    /\ score_eq v (minimax self d b).
Proof.
  intros Hfuel Hnd Hws.
  destruct (engine_bounds self d fuel b ∅ NegInf PosInf Hfuel) as
    (v & table & Hrun & [Hlo Hhi] & Hup & Hdown & _); auto.
  { reflexivity. }
  exists v, table. split; [exact Hrun|].
  specialize (Hup Hhi). specialize (Hdown Hlo). sorder.
Qed.

End Claims.

(** * The claims on synthetic games *)

Import Synthetic.

(** C1 (counterexample): on the tree [transposing], searched to depth 3 with
    a full window and an empty table, the search core returns 10 and full
    minimax 20.  [shared] is first searched below [left] with the window
    (-inf, 5), where it is cut off after its first move with the value 10;
    that value is stored and read back below [right], where the value of
    [shared], 20, is the one that counts. *)
Lemma engine_differs_from_minimax :
  exists v s',
    engine 4 white NegInf PosInf 3 (mkStore (start transposing) ∅) = Ok (v, s')
    /\ score_eq v (Fin 10)
    /\ score_eq (minimax white 3 (start transposing)) (Fin 20)
    /\ ~ score_eq v (minimax white 3 (start transposing)).
Proof.
  eexists _, _. split; [vm_compute; reflexivity|].
  split; [vm_compute; reflexivity|].
  split; [vm_compute; reflexivity|].
  vm_compute. discriminate.
Qed.

Lemma engine_equals_minimax_witness :
  exists v table,
    engine 3 white NegInf PosInf (Z.of_nat 2) (mkStore (start plain) ∅)
    = Ok (v, mkStore (start plain) table)
    /\ score_eq v (minimax white 2 (start plain)).
Proof.
  apply (engine_equals_minimax 3 white 2 (start plain)).
  - lia.
  - apply (bool_decide_unpack _). vm_compute. reflexivity.
  - simpl. repeat (split || constructor).
Defined.

(** C2: the initial running maximum, -99999, is not below every value of
    [evalFunct]: a position in which the perspective side has no legal move
    and is to move evaluates to about -1e9.  On [losing], where the only move
    of White lets Black mate, the search core at depth 2 answers -99999 where
    every line is worth -1e9. *)
Theorem initial_maximum_above_mate_score :
  legal_moves (start mated) = []
  /\ turn (start mated) = color white
  /\ slt (Fin (evalFunct white (start mated))) (Fin (-99999))
  /\ (exists s', engine 3 white NegInf PosInf 2 (mkStore (start losing) ∅)
                 = Ok (Fin (-99999), s'))
  /\ score_eq (minimax white 2 (start losing)) (Fin (-1000000000)).
Proof.
  split; [reflexivity|]. split; [reflexivity|]. split; [vm_compute; reflexivity|].
  split; [eexists; vm_compute; reflexivity|].
  vm_compute; reflexivity.
Qed.

(** C3 (counterexample): on a position without legal moves [getBestMove]
    raises nothing; it returns [None]. *)
Lemma getBestMove_raises_no_error :
  legal_moves (start mated) = []
  /\ getBestMove 1 white id (mkStore (start mated) ∅)
     = Ok (None, mkStore (start mated) ∅)
  /\ ~ exists e, getBestMove 1 white id (mkStore (start mated) ∅) = Raise e.
Proof.
  split; [reflexivity|]. split; [reflexivity|].
  intros [e H]. discriminate H.
Qed.

Lemma getBestMove_without_legal_moves_witness :
  getBestMove 1 white id (mkStore (start mated) ∅) = Ok (None, mkStore (start mated) ∅).
Proof.
  apply (getBestMove_without_legal_moves 1 white id (mkStore (start mated) ∅)).
  - reflexivity.
  - reflexivity.
Defined.

Lemma evalFunct_without_legal_moves_witness :
  (opening_book white (start mated) == 0
   /\ evalFunct white (start mated)
      == - 1e9 + (materialEvaluation white (start mated)
                  + center_control white (start mated)))%Q
  /\ mateOpportunity white (start plain) = 0%Q.
Proof.
  destruct (evalFunct_without_legal_moves white (start mated)) as [Hnone _].
  destruct (evalFunct_without_legal_moves white (start plain)) as [_ Hsome].
  destruct (Hnone eq_refl) as (Hop & Hme & _).
  split; [split; [exact Hop | apply Hme; reflexivity]|].
  apply Hsome. discriminate.
Defined.

Lemma orderMoves_sorted_witness :
  exists moves,
    orderMoves (mkStore (start tactical) ∅) = Ok (moves, mkStore (start tactical) ∅)
    /\ moves = [3; 2; 5; 1; 0; 4]%nat.
Proof.
  destruct (orderMoves_sorted (mkStore (start tactical) ∅)) as (moves & Hrun & _).
  - apply (bool_decide_unpack _). vm_compute. reflexivity.
  - exists moves. split; [exact Hrun|].
    vm_compute in Hrun. congruence.
Defined.

Lemma transposition_table_idempotent_witness :
  exists v s',
    engine 4 white NegInf PosInf 3 (mkStore (start transposing) ∅) = Ok (v, s')
    /\ board s' = start transposing
    /\ transposition_table s' !! 1%Z = Some v
    /\ engine 4 white (Fin 0) (Fin 1) 3 s' = Ok (v, s').
Proof.
  apply (transposition_table_idempotent 4 white NegInf PosInf (Fin 0) (Fin 1) 3
           (mkStore (start transposing) ∅)).
  - lia.
  - vm_compute. lia.
  - reflexivity.
Defined.

(** * More of the engine *)

(** ** Invariants of the transposition table *)

Section TableInvariant.

Context `{RE : RulesEngine}.

(** [I] is a property of the table that every write of the search core
    keeps, [P] a property of scores that holds of evaluations and of what
    the table holds, and that [max] and [min] keep. *)
Variables (I : gmap Z Score -> Prop) (P : Score -> Prop).

Hypothesis P_eval : forall q, P (Fin q).
Hypothesis P_max : forall a b, P a -> P b -> P (pymax a b).
Hypothesis P_min : forall a b, P a -> P b -> P (pymin a b).
Hypothesis P_cached : forall table h v, I table -> table !! h = Some v -> P v.
Hypothesis I_write : forall table0 table h v,
  I table0 -> table0 !! h = None -> I table -> P v -> I (<[h := v]> table).

Lemma pop_table (s s' : Store) (move : Move) :
  pop s = Ok (move, s') -> transposition_table s' = transposition_table s.
Proof.
  unfold pop. destruct (pop_board (board s)) as [[m b]|]; [|discriminate].
  intros H; injection H as _ <-. reflexivity.
Qed.

Lemma max_loop_invariant (rec : Score -> Score -> M Score) :
  (forall alpha beta s r s',
      I (transposition_table s) -> rec alpha beta s = Ok (r, s') ->
      P r /\ I (transposition_table s')) ->
  forall moves value alpha beta s r s',
    P value -> I (transposition_table s) ->
    max_loop rec moves value alpha beta s = Ok (r, s') ->
    P r /\ I (transposition_table s').
Proof.
  intros Hrec moves; induction moves as [|move rest IH];
    intros value alpha beta s r s' Hv HI Hrun; simpl in Hrun.
  - rewrite ret_run in Hrun. injection Hrun as <- <-. auto.
  - rewrite push_bind, bind_run in Hrun.
    destruct (rec alpha beta _) as [[r1 s1]| |] eqn:E1; try discriminate.
    apply Hrec in E1 as [Hr1 HI1]; [|exact HI].
    rewrite bind_run in Hrun.
    destruct (pop s1) as [[m s2]| |] eqn:E2; try discriminate.
    apply pop_table in E2. rewrite <- E2 in HI1.
    destruct (sleb beta (pymax alpha (pymax value r1))).
    + rewrite ret_run in Hrun. injection Hrun as <- <-. auto.
    + eapply IH; [| |exact Hrun]; auto.
Qed.

Lemma min_loop_invariant (rec : Score -> Score -> M Score) :
  (forall alpha beta s r s',
      I (transposition_table s) -> rec alpha beta s = Ok (r, s') ->
      P r /\ I (transposition_table s')) ->
  forall moves value alpha beta s r s',
    P value -> I (transposition_table s) ->
    min_loop rec moves value alpha beta s = Ok (r, s') ->
    P r /\ I (transposition_table s').
Proof.
  intros Hrec moves; induction moves as [|move rest IH];
    intros value alpha beta s r s' Hv HI Hrun; simpl in Hrun.
  - rewrite ret_run in Hrun. injection Hrun as <- <-. auto.
  - rewrite push_bind, bind_run in Hrun.
    destruct (rec alpha beta _) as [[r1 s1]| |] eqn:E1; try discriminate.
    apply Hrec in E1 as [Hr1 HI1]; [|exact HI].
    rewrite bind_run in Hrun.
    destruct (pop s1) as [[m s2]| |] eqn:E2; try discriminate.
    apply pop_table in E2. rewrite <- E2 in HI1.
    destruct (sleb (pymin beta (pymin value r1)) alpha).
    + rewrite ret_run in Hrun. injection Hrun as <- <-. auto.
    + eapply IH; [| |exact Hrun]; auto.
Qed.

Lemma engine_invariant (fuel : nat) (self : Engine) :
  forall depth alpha beta s r s',
    I (transposition_table s) ->
    engine fuel self alpha beta depth s = Ok (r, s') ->
    P r /\ I (transposition_table s').
Proof.
  induction fuel as [|fuel IH]; intros depth alpha beta s r s' HI Hrun;
    [discriminate|].
  destruct ((depth =? 0)%Z || is_game_over (board s)) eqn:Hbase.
  { simpl in Hrun. rewrite get_board_bind, Hbase, ret_run in Hrun.
    injection Hrun as <- <-. auto. }
  destruct (transposition_table s !! zobrist_hash (board s)) as [cached|] eqn:Hhit.
  { simpl in Hrun. rewrite get_board_bind, Hbase, get_table_bind, Hhit, ret_run in Hrun.
    injection Hrun as <- <-. eauto. }
  rewrite engine_step in Hrun by assumption.
  destruct (orderMoves_perm s) as (moves & Hord & _).
  assert (Hloop : exists s1,
    transposition_table s' = <[zobrist_hash (board s) := r]> (transposition_table s1)
    /\ P r /\ I (transposition_table s1)).
  { destruct (Bool.eqb (turn (board s)) (color self));
      rewrite bind_run, Hord in Hrun.
    - destruct (max_loop _ moves _ alpha beta s) as [[v s1]| |] eqn:E; try discriminate.
      injection Hrun as <- <-. exists s1. split; [reflexivity|].
      eapply (max_loop_invariant (fun a b => engine fuel self a b (depth - 1)));
        [intros; eapply IH; eauto | apply P_eval | exact HI | exact E].
    - destruct (min_loop _ moves _ alpha beta s) as [[v s1]| |] eqn:E; try discriminate.
      injection Hrun as <- <-. exists s1. split; [reflexivity|].
      eapply (min_loop_invariant (fun a b => engine fuel self a b (depth - 1)));
        [intros; eapply IH; eauto | apply P_eval | exact HI | exact E]. }
  destruct Hloop as (s1 & -> & Hr & HI1). split; [exact Hr|]. eauto.
Qed.

End TableInvariant.

(** ** The search core and the table *)

Section SearchProperties.

Context `{RE : RulesEngine}.

Lemma engine_table_subseteq (fuel : nat) (self : Engine) (alpha beta : Score)
    (depth : Z) (s : Store) (r : Score) (s' : Store) :
  engine fuel self alpha beta depth s = Ok (r, s') ->
  transposition_table s ⊆ transposition_table s'.
Proof.
  intros Hrun. apply map_subseteq_spec. intros k v Hk.
  apply (engine_invariant (fun table => table !! k = Some v) (fun _ => True))
    in Hrun; auto.
  - tauto.
  - intros table0 table h w H0 Hmiss Ht _.
    rewrite lookup_insert_ne; [exact Ht|]. congruence.
Qed.

Lemma engine_finite (fuel : nat) (self : Engine) (alpha beta : Score)
    (depth : Z) (s : Store) (r : Score) (s' : Store) :
  map_Forall (fun _ v => finite_score v) (transposition_table s) ->
  engine fuel self alpha beta depth s = Ok (r, s') ->
  finite_score r /\ map_Forall (fun _ v => finite_score v) (transposition_table s').
Proof.
  intros Hfin Hrun.
  apply (engine_invariant (map_Forall (fun _ v => finite_score v)) finite_score)
    in Hrun; auto.
  - apply Fin_fin.
  - apply pymax_fin.
  - apply pymin_fin.
  - intros table h v Ht Hh. exact (Ht h v Hh).
  - intros table0 table h v _ _ Ht Hv. now apply map_Forall_insert_2.
Qed.

Lemma evaluateMove_run (fuel : nat) (self : Engine) (move : Move)
    (alpha beta : Score) (s : Store) :
  match evaluateMove fuel self move alpha beta s with
  | Ok (move_value, s') =>
      board s' = board s
      /\ engine fuel self alpha beta (maxDepth self - 1)
           (mkStore (push_board (board s) move) (transposition_table s))
         = Ok (move_value,
               mkStore (push_board (board s) move) (transposition_table s'))
  | Raise _ => False
  | OutOfFuel => (fuel <= Z.to_nat (maxDepth self - 1))%nat \/ (maxDepth self - 1 < 0)%Z
  end.
Proof.
  unfold evaluateMove. rewrite push_bind, bind_run.
  pose proof (engine_restores fuel self (maxDepth self - 1) alpha beta
                (mkStore (push_board (board s) move) (transposition_table s))) as H.
  destruct (engine fuel self alpha beta (maxDepth self - 1) _)
    as [[v [b table]]| |]; simpl in H; try tauto.
  subst b. rewrite pop_bind, ret_run. cbn [board transposition_table]. auto.
Qed.

(** The search core only adds to the table: an entry that is there when a
    call starts is there, unchanged, when it returns. *)
Theorem engine_keeps_table_entries (fuel : nat) (self : Engine) (alpha beta : Score)
    (depth : Z) (s : Store) :
  match engine fuel self alpha beta depth s with
  | Ok (_, s') => transposition_table s ⊆ transposition_table s'
  | Raise _ | OutOfFuel => True
  end.
Proof.
  destruct (engine fuel self alpha beta depth s) as [[r s']| |] eqn:Hrun; auto.
  eapply engine_table_subseteq, Hrun.
Qed.

(** When the table holds finite scores only, so does it after a call of the
    search core, and the score returned is finite. *)
Theorem engine_finite_scores (fuel : nat) (self : Engine) (alpha beta : Score)
    (depth : Z) (s : Store) :
  map_Forall (fun _ v => finite_score v) (transposition_table s) ->
  match engine fuel self alpha beta depth s with
  | Ok (r, s') =>
      finite_score r /\ map_Forall (fun _ v => finite_score v) (transposition_table s')
  | Raise _ | OutOfFuel => True
  end.
Proof.
  intros Hfin.
  destruct (engine fuel self alpha beta depth s) as [[r s']| |] eqn:Hrun; auto.
  eapply engine_finite; eauto.
Qed.

Lemma max_loop_ge (rec : Score -> Score -> M Score) (moves : list Move) :
  forall value alpha beta s r s',
    max_loop rec moves value alpha beta s = Ok (r, s') -> sle value r.
Proof.
  induction moves as [|move rest IH]; intros value alpha beta s r s' Hrun;
    simpl in Hrun.
  - rewrite ret_run in Hrun. injection Hrun as <- _. sorder.
  - rewrite push_bind, bind_run in Hrun.
    destruct (rec alpha beta _) as [[r1 s1]| |]; try discriminate.
    rewrite bind_run in Hrun. destruct (pop s1) as [[m s2]| |]; try discriminate.
    assert (Hle : sle value (pymax value r1)).
    { destruct (pymax_spec value r1) as [[? ->]|[? ->]]; sorder. }
    destruct (sleb beta (pymax alpha (pymax value r1))).
    + rewrite ret_run in Hrun. injection Hrun as <- _. exact Hle.
    + apply IH in Hrun. sorder.
Qed.

Lemma min_loop_le (rec : Score -> Score -> M Score) (moves : list Move) :
  forall value alpha beta s r s',
    min_loop rec moves value alpha beta s = Ok (r, s') -> sle r value.
Proof.
  induction moves as [|move rest IH]; intros value alpha beta s r s' Hrun;
    simpl in Hrun.
  - rewrite ret_run in Hrun. injection Hrun as <- _. sorder.
  - rewrite push_bind, bind_run in Hrun.
    destruct (rec alpha beta _) as [[r1 s1]| |]; try discriminate.
    rewrite bind_run in Hrun. destruct (pop s1) as [[m s2]| |]; try discriminate.
    assert (Hle : sle (pymin value r1) value).
    { destruct (pymin_spec value r1) as [[? ->]|[? ->]]; sorder. }
    destruct (sleb (pymin beta (pymin value r1)) alpha).
    + rewrite ret_run in Hrun. injection Hrun as <- _. exact Hle.
    + apply IH in Hrun. sorder.
Qed.

(** A node that is searched (not a leaf, not in the table) never reports
    less than -99999 when the perspective color is to move, nor more than
    9999999999 when the opponent is, whatever its children are worth. *)
Theorem engine_value_within_initial_values (fuel : nat) (self : Engine)
    (alpha beta : Score) (depth : Z) (s : Store) (r : Score) (s' : Store) :
  (depth =? 0)%Z || is_game_over (board s) = false ->
  transposition_table s !! zobrist_hash (board s) = None ->
  engine fuel self alpha beta depth s = Ok (r, s') ->
  if Bool.eqb (turn (board s)) (color self)
  then sle (Fin (-99999)) r
  else sle r (Fin 9999999999).
Proof.
  intros Hbase Hmiss Hrun. destruct fuel as [|fuel]; [discriminate|].
  rewrite engine_step in Hrun by assumption.
  destruct (orderMoves_perm s) as (moves & Hord & _).
  destruct (Bool.eqb (turn (board s)) (color self)); rewrite bind_run, Hord in Hrun.
  - destruct (max_loop _ moves _ alpha beta s) as [[v s1]| |] eqn:E; try discriminate.
    injection Hrun as <- _. eapply max_loop_ge, E.
  - destruct (min_loop _ moves _ alpha beta s) as [[v s1]| |] eqn:E; try discriminate.
    injection Hrun as <- _. eapply min_loop_le, E.
Qed.

(** With any window [alpha < beta], on a tree without repeated hashes and
    within the initial values, and a table that holds none of its hashes:
    a value returned under [beta] is at least the minimax value, a value
    returned over [alpha] is at most the minimax value; so a value strictly
    inside the window is the minimax value. *)
Theorem engine_window_bounds (fuel : nat) (self : Engine) (d : nat)
    (b : Board Position Move) (table : gmap Z Score) (alpha beta : Score) :
  (d < fuel)%nat ->
  slt alpha beta ->
  (forall h, h ∈ inner_hashes d b -> table !! h = None) ->
  NoDup (inner_hashes d b) ->
  within_sentinels self d b ->
  exists r table',
    engine fuel self alpha beta (Z.of_nat d) (mkStore b table) = Ok (r, mkStore b table')
    /\ (slt r beta -> sle (minimax self d b) r)
    /\ (slt alpha r -> sle r (minimax self d b))
    /\ (slt alpha r -> slt r beta -> score_eq r (minimax self d b)).
Proof.
  intros Hfuel Hab Hfresh Hnd Hws.
  destruct (engine_bounds self d fuel b table alpha beta Hfuel Hab Hfresh Hnd Hws)
    as (r & table' & Hrun & _ & Hup & Hdown & _).
  exists r, table'. split; [exact Hrun|]. split; [exact Hup|]. split; [exact Hdown|].
  intros H1 H2. specialize (Hup H2). specialize (Hdown H1). sorder.
Qed.

(** [evaluateMove] returns with the board it was given; its value is the
    value of the search core at [maxDepth - 1] on the board after the move.
    It never raises. *)
Theorem evaluateMove_restores_board (fuel : nat) (self : Engine) (move : Move)
    (alpha beta : Score) (s : Store) :
  match evaluateMove fuel self move alpha beta s with
  | Ok (move_value, s') =>
      board s' = board s
      /\ engine fuel self alpha beta (maxDepth self - 1)
           (mkStore (push_board (board s) move) (transposition_table s))
         = Ok (move_value,
               mkStore (push_board (board s) move) (transposition_table s'))
  | Raise _ => False
  | OutOfFuel => (fuel <= Z.to_nat (maxDepth self - 1))%nat \/ (maxDepth self - 1 < 0)%Z
  end.
Proof. apply evaluateMove_run. Qed.

End SearchProperties.

(** ** The root dispatcher *)

Section RootDispatcher.

Context `{RE : RulesEngine}.



End RootDispatcher.

Section RootDispatcherResults.

Context `{RE : RulesEngine}.








End RootDispatcherResults.

(** ** The evaluator *)

Section Evaluator.

Context `{RE : RulesEngine}.

Open Scope Q_scope.

Lemma len_cons {A : Type} (x : A) (l : list A) : len (x :: l) == len l + 1.
Proof.
  unfold len. simpl length. rewrite Nat2Z.inj_succ, <- Z.add_1_r, inject_Z_plus.
  reflexivity.
Qed.

Lemma len_bounds {A : Type} (l : list A) (n : Z) :
  (Z.of_nat (length l) <= n)%Z -> 0 <= len l /\ len l <= inject_Z n.
Proof.
  intros H. unfold len. split.
  - change 0 with (inject_Z 0). rewrite <- Zle_Qle. lia.
  - rewrite <- Zle_Qle. exact H.
Qed.

Lemma center_fold_bounds (self : Engine) (b : Board Position Move) (l : list Square) :
  forall acc,
    acc - 0.3 * len l
    <= fold_left
         (fun score square =>
            match piece_at b square with
            | Some piece =>
                let weight := piece_weights (piece_type piece) in
                score + (if Bool.eqb (piece_color piece) (color self)
                         then weight else - weight)
            | None => score
            end) l acc
    <= acc + 0.3 * len l.
Proof.
  match goal with |- context [fold_left ?f _ _] => set (step := f) end.
  assert (Hstep : forall acc sq, acc - 0.3 <= step acc sq <= acc + 0.3).
  { intros acc sq. unfold step. destruct (piece_at b sq) as [[pt pc]|]; [|lra].
    cbn [piece_type piece_color]. cbv zeta.
    destruct (Bool.eqb pc (color self)), pt; unfold piece_weights; lra. }
  induction l as [|sq l IH]; intros acc.
  - change (len (@nil Square)) with 0. simpl. lra.
  - cbn [fold_left]. rewrite len_cons.
    specialize (IH (step acc sq)). specialize (Hstep acc sq). lra.
Qed.

Lemma center_fold_antisymmetric (c : Color) (depth depth' : Z)
    (b : Board Position Move) (l : list Square) :
  forall acc acc',
    acc == - acc' ->
    fold_left
      (fun score square =>
         match piece_at b square with
         | Some piece =>
             let weight := piece_weights (piece_type piece) in
             score + (if Bool.eqb (piece_color piece) (color (mkEngine c depth))
                      then weight else - weight)
         | None => score
         end) l acc
    == - fold_left
           (fun score square =>
              match piece_at b square with
              | Some piece =>
                  let weight := piece_weights (piece_type piece) in
                  score + (if Bool.eqb (piece_color piece)
                                       (color (mkEngine (negb c) depth'))
                           then weight else - weight)
              | None => score
              end) l acc'.
Proof.
  match goal with
  | |- forall acc acc', _ -> fold_left ?f _ _ == - fold_left ?g _ _ =>
      set (step := f); set (step' := g)
  end.
  assert (Hstep : forall acc acc' sq,
             acc == - acc' -> step acc sq == - step' acc' sq).
  { intros acc acc' sq Hacc. unfold step, step'.
    destruct (piece_at b sq) as [[pt pc]|]; [|exact Hacc].
    cbn [piece_type piece_color color]. cbv zeta.
    destruct pc, c; simpl; lra. }
  induction l as [|sq l IH]; intros acc acc' Hacc; cbn [fold_left].
  - exact Hacc.
  - apply IH, Hstep, Hacc.
Qed.

Lemma material_bounds (self : Engine) (b : Board Position Move) :
  (forall pt c, length (pieces b pt c) <= 64)%nat ->
  -1424 <= materialEvaluation self b <= 1424.
Proof.
  intros Hcount.
  assert (H : forall pt c, 0 <= len (pieces b pt c) /\ len (pieces b pt c) <= 64).
  { intros pt c. apply (len_bounds _ 64). specialize (Hcount pt c). lia. }
  unfold materialEvaluation, PIECE_TYPES. cbn [fold_left]. unfold pieceValue.
  pose proof (H PAWN (color self)). pose proof (H PAWN (negb (color self))).
  pose proof (H KNIGHT (color self)). pose proof (H KNIGHT (negb (color self))).
  pose proof (H BISHOP (color self)). pose proof (H BISHOP (negb (color self))).
  pose proof (H ROOK (color self)). pose proof (H ROOK (negb (color self))).
  pose proof (H QUEEN (color self)). pose proof (H QUEEN (negb (color self))).
  lra.
Qed.

Lemma opening_bounds (self : Engine) (b : Board Position Move) :
  (length (legal_moves b) <= 218)%nat ->
  -8 <= opening_book self b <= 8
  /\ (legal_moves b = [] -> opening_book self b == 0).
Proof.
  intros Hcount.
  destruct (len_bounds (legal_moves b) 218) as [H0 H1]; [lia|].
  change (inject_Z 218) with 218 in H1.
  unfold opening_book. split.
  - destruct (fullmove_number b <? 10)%Z; [|lra].
    destruct (Bool.eqb (turn b) (color self)); cbv zeta;
      [change (1 / 30) with (1 # 30) | change (-1 / 30) with (-1 # 30)]; lra.
  - intros ->. destruct (fullmove_number b <? 10)%Z; [|reflexivity].
    unfold len; simpl. ring.
Qed.

Lemma mate_cases (self : Engine) (b : Board Position Move) :
  (legal_moves b = [] /\ turn b = color self
   /\ mateOpportunity self b == -1000000000)
  \/ (legal_moves b = [] /\ turn b <> color self
      /\ mateOpportunity self b == 1000000000)
  \/ (legal_moves b <> [] /\ mateOpportunity self b == 0).
Proof.
  unfold mateOpportunity. destruct (legal_moves b).
  - destruct (Bool.eqb (turn b) (color self)) eqn:E.
    + left. apply (proj1 (Bool.eqb_true_iff _ _)) in E.
      split; [reflexivity|]. split; [exact E | vm_compute; reflexivity].
    + right; left. apply (proj1 (Bool.eqb_false_iff _ _)) in E.
      split; [reflexivity|]. split; [exact E | vm_compute; reflexivity].
  - right; right. split; [discriminate | reflexivity].
Qed.

(** The center term lies between -1.2 and 1.2 on every board. *)
Theorem center_control_bounded (self : Engine) (b : Board Position Move) :
  -1.2 <= center_control self b <= 1.2.
Proof.
  pose proof (center_fold_bounds self b center_squares 0) as H.
  change (len center_squares) with 4 in H.
  cbv zeta in H. unfold center_control. lra.
Qed.

(** The whole evaluation is antisymmetric in the perspective color: seen
    from the other color, a board is worth the negation. *)
Theorem evalFunct_antisymmetric (c : Color) (depth depth' : Z)
    (b : Board Position Move) :
  evalFunct (mkEngine c depth) b == - evalFunct (mkEngine (negb c) depth') b.
Proof.
  unfold evalFunct.
  assert (Hmat : materialEvaluation (mkEngine c depth) b
                 == - materialEvaluation (mkEngine (negb c) depth') b).
  { unfold materialEvaluation, PIECE_TYPES. cbn [fold_left color].
    rewrite negb_involutive. ring. }
  assert (Hmate : mateOpportunity (mkEngine c depth) b
                  == - mateOpportunity (mkEngine (negb c) depth') b).
  { unfold mateOpportunity. cbn [color]. destruct (legal_moves b); [|reflexivity].
    destruct (turn b), c; reflexivity. }
  assert (Hopen : opening_book (mkEngine c depth) b
                  == - opening_book (mkEngine (negb c) depth') b).
  { unfold opening_book. cbn [color].
    destruct (fullmove_number b <? 10)%Z; [|reflexivity].
    destruct (turn b), c; simpl; field. }
  assert (Hcen : center_control (mkEngine c depth) b
                 == - center_control (mkEngine (negb c) depth') b).
  { apply center_fold_antisymmetric. reflexivity. }
  rewrite Hmat, Hmate, Hopen, Hcen. ring.
Qed.

(** On a board of 64 squares, with at most 218 legal moves, the evaluation
    stays strictly below the initial running minimum 9999999999 and within
    1433 of the mate sentinels. *)
Theorem evalFunct_below_initial_minimum (self : Engine) (b : Board Position Move) :
  (forall pt c, length (pieces b pt c) <= 64)%nat ->
  (length (legal_moves b) <= 218)%nat ->
  -1000001433 <= evalFunct self b <= 1000001433
  /\ slt (Fin (evalFunct self b)) (Fin 9999999999).
Proof.
  intros Hpieces Hmoves.
  pose proof (material_bounds self b Hpieces) as Hmat.
  destruct (opening_bounds self b Hmoves) as [Hopen Hopen0].
  pose proof (center_fold_bounds self b center_squares 0) as Hcen.
  change (len center_squares) with 4 in Hcen. cbv zeta in Hcen.
  assert (Hb : -1000001433 <= evalFunct self b <= 1000001433).
  { unfold evalFunct.
    destruct (mate_cases self b) as [(Hnil & _ & E)|[(Hnil & _ & E)|(_ & E)]];
      rewrite E; try rewrite (Hopen0 Hnil); unfold center_control; lra. }
  split; [exact Hb|]. apply slt_spec. lra.
Qed.

Lemma evalFunct_ranges (self : Engine) (b : Board Position Move) :
  (forall pt c, length (pieces b pt c) <= 64)%nat ->
  (length (legal_moves b) <= 218)%nat ->
  (legal_moves b = [] /\ turn b = color self
   /\ evalFunct self b <= -999998574)
  \/ (legal_moves b = [] /\ turn b <> color self
      /\ 999998574 <= evalFunct self b)
  \/ (legal_moves b <> [] /\ -1434 <= evalFunct self b <= 1434).
Proof.
  intros Hpieces Hmoves.
  pose proof (material_bounds self b Hpieces) as Hmat.
  destruct (opening_bounds self b Hmoves) as [Hopen Hopen0].
  pose proof (center_fold_bounds self b center_squares 0) as Hcen.
  change (len center_squares) with 4 in Hcen. cbv zeta in Hcen.
  destruct (mate_cases self b) as [(Hnil & Ht & E)|[(Hnil & Ht & E)|(Hsome & E)]].
  - left. split; [exact Hnil|]. split; [exact Ht|].
    unfold evalFunct. rewrite E, (Hopen0 Hnil). unfold center_control. lra.
  - right; left. split; [exact Hnil|]. split; [exact Ht|].
    unfold evalFunct. rewrite E, (Hopen0 Hnil). unfold center_control. lra.
  - right; right. split; [exact Hsome|].
    unfold evalFunct. rewrite E. unfold center_control. lra.
Qed.

(** Mate outweighs everything else: on boards of 64 squares, a position in
    which the perspective side is to move and has no legal move is worth
    less, and one in which the opponent is to move and has none is worth
    more, than any position that has legal moves (at most 218 of them). *)
Theorem mate_outweighs_any_position (self : Engine)
    (lost other won : Board Position Move) :
  (forall pt c, length (pieces lost pt c) <= 64)%nat ->
  (forall pt c, length (pieces other pt c) <= 64)%nat ->
  (forall pt c, length (pieces won pt c) <= 64)%nat ->
  (0 < length (legal_moves other) <= 218)%nat ->
  legal_moves lost = [] -> turn lost = color self ->
  legal_moves won = [] -> turn won <> color self ->
  evalFunct self lost < evalFunct self other
  /\ evalFunct self other < evalFunct self won.
Proof.
  intros Hl Ho Hw [Hpos Hmoves] Hlnil Hlturn Hwnil Hwturn.
  assert (Hlm : (length (legal_moves lost) <= 218)%nat) by (rewrite Hlnil; simpl; lia).
  assert (Hwm : (length (legal_moves won) <= 218)%nat) by (rewrite Hwnil; simpl; lia).
  destruct (evalFunct_ranges self lost Hl Hlm)
    as [(_ & _ & El)|[(_ & Hc & _)|(Hc & _)]]; [|congruence|congruence].
  destruct (evalFunct_ranges self won Hw Hwm)
    as [(_ & Hc & _)|[(_ & _ & Ew)|(Hc & _)]]; [congruence| |congruence].
  destruct (evalFunct_ranges self other Ho Hmoves)
    as [(Hc & _)|[(Hc & _)|(_ & Eo)]];
    [rewrite Hc in Hpos; simpl in Hpos; lia
    |rewrite Hc in Hpos; simpl in Hpos; lia|].
  lra.
Qed.

Close Scope Q_scope.

End Evaluator.

(** ** On synthetic games *)

Lemma engine_finite_scores_witness :
  match engine 4 white NegInf PosInf 3 (mkStore (start transposing) ∅) with
  | Ok (r, s') =>
      finite_score r /\ map_Forall (fun _ v => finite_score v) (transposition_table s')
  | Raise _ | OutOfFuel => True
  end.
Proof.
  apply (engine_finite_scores 4 white NegInf PosInf 3 (mkStore (start transposing) ∅)).
  apply map_Forall_empty.
Defined.

Lemma engine_value_within_initial_values_witness :
  exists r s',
    engine 3 white NegInf PosInf 2 (mkStore (start losing) ∅) = Ok (r, s')
    /\ sle (Fin (-99999)) r.
Proof.
  eexists _, _. split; [vm_compute; reflexivity|].
  refine (engine_value_within_initial_values 3 white NegInf PosInf 2
            (mkStore (start losing) ∅) _ _ _ _ _).
  - reflexivity.
  - reflexivity.
  - vm_compute. reflexivity.
Defined.

Lemma engine_window_bounds_witness :
  exists r table',
    engine 3 white (Fin 0) (Fin 6) (Z.of_nat 2) (mkStore (start plain) ∅)
    = Ok (r, mkStore (start plain) table')
    /\ (slt r (Fin 6) -> sle (minimax white 2 (start plain)) r)
    /\ (slt (Fin 0) r -> sle r (minimax white 2 (start plain)))
    /\ (slt (Fin 0) r -> slt r (Fin 6) -> score_eq r (minimax white 2 (start plain))).
Proof.
  apply (engine_window_bounds 3 white 2 (start plain) ∅ (Fin 0) (Fin 6)).
  - lia.
  - reflexivity.
  - reflexivity.
  - apply (bool_decide_unpack _). vm_compute. reflexivity.
  - simpl. repeat (split || constructor).
Defined.




Lemma evalFunct_below_initial_minimum_witness :
  (-1000001433 <= evalFunct white (start mated) <= 1000001433)%Q
  /\ slt (Fin (evalFunct white (start mated))) (Fin 9999999999).
Proof.
  apply (evalFunct_below_initial_minimum white (start mated)).
  - intros pt c. destruct pt, c; simpl; lia.
  - simpl. lia.
Defined.

Lemma mate_outweighs_any_position_witness :
  (evalFunct white (start mated) < evalFunct white (start plain)
   /\ evalFunct white (start plain) < evalFunct white (start (quiet 2 false 0 [])))%Q.
Proof.
  apply (mate_outweighs_any_position white (start mated) (start plain)
           (start (quiet 2 false 0 []))).
  - intros pt c. destruct pt, c; simpl; lia.
  - intros pt c. destruct pt, c; simpl; lia.
  - intros pt c. destruct pt, c; simpl; lia.
  - simpl. lia.
  - reflexivity.
  - reflexivity.
  - reflexivity.
  - discriminate.
Defined.

(** ** What the search core writes *)

Section TableWrites.

Context `{RE : RulesEngine}.

Lemma max_loop_writes (rec : Score -> Score -> M Score) (d : nat)
    (b : Board Position Move) :
  (forall move alpha beta table r s',
      rec alpha beta (mkStore (push_board b move) table) = Ok (r, s') ->
      board s' = push_board b move
      /\ forall h, transposition_table s' !! h <> None ->
           table !! h <> None \/ h ∈ inner_hashes d (push_board b move)) ->
  forall moves value alpha beta table r s',
    max_loop rec moves value alpha beta (mkStore b table) = Ok (r, s') ->
    forall h, transposition_table s' !! h <> None ->
      table !! h <> None
      \/ h ∈ flat_map (fun m => inner_hashes d (push_board b m)) moves.
Proof.
  intros Hrec moves; induction moves as [|move rest IH];
    intros value alpha beta table r s' Hrun h Hh; simpl in Hrun.
  - rewrite ret_run in Hrun. injection Hrun as _ <-. auto.
  - rewrite push_bind, bind_run in Hrun. cbn [board transposition_table] in Hrun.
    destruct (rec alpha beta _) as [[r1 [b1 table1]]| |] eqn:E1; try discriminate.
    apply Hrec in E1 as [Hb1 Hw1]. cbn [board transposition_table] in Hb1, Hw1.
    subst b1. rewrite pop_bind in Hrun.
    simpl. rewrite elem_of_app.
    destruct (sleb beta (pymax alpha (pymax value r1))).
    + rewrite ret_run in Hrun. injection Hrun as _ <-.
      destruct (Hw1 h Hh); auto.
    + destruct (IH _ _ _ _ _ _ Hrun h Hh) as [H|H]; auto.
      destruct (Hw1 h H); auto.
Qed.

Lemma min_loop_writes (rec : Score -> Score -> M Score) (d : nat)
    (b : Board Position Move) :
  (forall move alpha beta table r s',
      rec alpha beta (mkStore (push_board b move) table) = Ok (r, s') ->
      board s' = push_board b move
      /\ forall h, transposition_table s' !! h <> None ->
           table !! h <> None \/ h ∈ inner_hashes d (push_board b move)) ->
  forall moves value alpha beta table r s',
    min_loop rec moves value alpha beta (mkStore b table) = Ok (r, s') ->
    forall h, transposition_table s' !! h <> None ->
      table !! h <> None
      \/ h ∈ flat_map (fun m => inner_hashes d (push_board b m)) moves.
Proof.
  intros Hrec moves; induction moves as [|move rest IH];
    intros value alpha beta table r s' Hrun h Hh; simpl in Hrun.
  - rewrite ret_run in Hrun. injection Hrun as _ <-. auto.
  - rewrite push_bind, bind_run in Hrun. cbn [board transposition_table] in Hrun.
    destruct (rec alpha beta _) as [[r1 [b1 table1]]| |] eqn:E1; try discriminate.
    apply Hrec in E1 as [Hb1 Hw1]. cbn [board transposition_table] in Hb1, Hw1.
    subst b1. rewrite pop_bind in Hrun.
    simpl. rewrite elem_of_app.
    destruct (sleb (pymin beta (pymin value r1)) alpha).
    + rewrite ret_run in Hrun. injection Hrun as _ <-.
      destruct (Hw1 h Hh); auto.
    + destruct (IH _ _ _ _ _ _ Hrun h Hh) as [H|H]; auto.
      destruct (Hw1 h H); auto.
Qed.

Lemma engine_writes (self : Engine) (d : nat) :
  forall fuel b table alpha beta r s',
    engine fuel self alpha beta (Z.of_nat d) (mkStore b table) = Ok (r, s') ->
    forall h, transposition_table s' !! h <> None ->
      table !! h <> None \/ h ∈ inner_hashes d b.
Proof.
  induction d as [|d IH]; intros fuel b table alpha beta r s' Hrun h Hh;
    (destruct fuel as [|fuel]; [discriminate|]).
  - change (Ok (Fin (evalFunct self b), mkStore b table) = Ok (r, s')) in Hrun.
    injection Hrun as _ <-. auto.
  - destruct (is_game_over b) eqn:Hgo.
    { simpl in Hrun. rewrite get_board_bind in Hrun. cbn [board] in Hrun.
      rewrite Hgo, ret_run in Hrun. injection Hrun as _ <-. auto. }
    destruct (table !! zobrist_hash b) as [cached|] eqn:Hhit.
    { simpl in Hrun. rewrite get_board_bind in Hrun. cbn [board] in Hrun.
      rewrite Hgo, get_table_bind in Hrun. cbn [transposition_table] in Hrun.
      rewrite Hhit, ret_run in Hrun. injection Hrun as _ <-. auto. }
    rewrite inner_hashes_step by assumption.
    rewrite engine_step in Hrun; cbn [board transposition_table] in *;
      [ | rewrite Hgo; reflexivity | assumption ].
    replace (Z.of_nat (S d) - 1)%Z with (Z.of_nat d) in Hrun by lia.
    destruct (orderMoves_perm (mkStore b table)) as (moves & Hord & Hperm).
    simpl in Hperm.
    assert (Hrec : forall move alpha beta table r s',
      engine fuel self alpha beta (Z.of_nat d) (mkStore (push_board b move) table)
      = Ok (r, s') ->
      board s' = push_board b move
      /\ forall h, transposition_table s' !! h <> None ->
           table !! h <> None \/ h ∈ inner_hashes d (push_board b move)).
    { intros move a0 b0 t0 r0 s0 H0. split.
      - pose proof (engine_restores fuel self (Z.of_nat d) a0 b0
                      (mkStore (push_board b move) t0)) as Hres.
        rewrite H0 in Hres. exact Hres.
      - eapply IH, H0. }
    assert (Hloop : exists s1,
      transposition_table s' = <[zobrist_hash b := r]> (transposition_table s1)
      /\ forall h, transposition_table s1 !! h <> None ->
           table !! h <> None
           \/ h ∈ flat_map (fun m => inner_hashes d (push_board b m)) moves).
    { destruct (Bool.eqb (turn b) (color self));
        rewrite bind_run, Hord in Hrun.
      - destruct (max_loop _ moves _ alpha beta _) as [[v s1]| |] eqn:E; try discriminate.
        injection Hrun as <- <-. exists s1. split; [reflexivity|].
        eapply (max_loop_writes
                  (fun alpha beta => engine fuel self alpha beta (Z.of_nat d)));
          [exact Hrec | exact E].
      - destruct (min_loop _ moves _ alpha beta _) as [[v s1]| |] eqn:E; try discriminate.
        injection Hrun as <- <-. exists s1. split; [reflexivity|].
        eapply (min_loop_writes
                  (fun alpha beta => engine fuel self alpha beta (Z.of_nat d)));
          [exact Hrec | exact E]. }
    destruct Hloop as (s1 & Et & Hw). rewrite Et in Hh.
    destruct (decide (h = zobrist_hash b)) as [->|Hne]; [right; left|].
    rewrite lookup_insert_ne in Hh by congruence.
    destruct (Hw h Hh) as [H|H]; [auto|].
    right; right. now rewrite <- Hperm.
Qed.

(** The search core writes nothing but hashes of inner positions of the tree
    it is asked to search: a hash in the table after a call to depth [d] was
    there before, or is the hash of a position within [d] plies that is not
    a leaf. *)
Theorem engine_writes_tree_hashes_only (fuel : nat) (self : Engine) (d : nat)
    (b : Board Position Move) (table : gmap Z Score) (alpha beta : Score) :
  match engine fuel self alpha beta (Z.of_nat d) (mkStore b table) with
  | Ok (_, s') =>
      forall h, transposition_table s' !! h <> None ->
        table !! h <> None \/ h ∈ inner_hashes d b
  | Raise _ | OutOfFuel => True
  end.
Proof.
  destruct (engine fuel self alpha beta (Z.of_nat d) (mkStore b table))
    as [[r s']| |] eqn:Hrun; auto.
  eapply engine_writes, Hrun.
Qed.

End TableWrites.
